(** * Aurora-Bot, [extensions/music.py]: the per-server playlist cog.

    A shallow embedding of the [VoiceEntry], [VoiceState] and [Music]
    classes, followed by the properties of the playback scheduler.

    Modelling conventions.
    - A Python object that is reachable through one owner only is stored by
      value inside its owner: a player inside its [VoiceEntry], an entry in
      the [songs] queue or in [current], a [VoiceState] in the
      [voice_states] dict under its server id.  A local variable [state] of
      a command is the key of that dict.
    - A command body runs to completion: its [await bot.say(...)] points are
      not interleaved with other tasks.  The player task, the thread of a
      started source and the commands interleave as [Event]s.
    - What the discord library decides (connecting, moving, resolving a
      song, disconnecting) is an input of the command: [None] when the call
      returns, [Some e] when it raises [e].
    - Every call that leaves the cog (a message, a call on a source, a call
      on the voice transport, the cancellation of a task of the event loop)
      is recorded in the list of [Effect]s that an action returns.
    - The float [value / 100] is kept as the exact rational where the
      division returns; where the quotient is beyond the doubles the
      division raises [OverflowError]. *)

From Stdlib Require Import ZArith QArith.
From stdpp Require Import base option list gmap strings pretty.

(** ** Identities of the chat library *)

Module Channel.
Record t := mk { id : string; server : string }.
End Channel.

Module Member.
Record t := mk { id : string; voice_channel : option Channel.t }.

(** [User.__eq__] of the chat library: two members are equal when their
    ids are. *)
Definition eqb (a b : t) : bool := bool_decide (id a = id b).
End Member.

(** [ctx.message]: the command surface reads its author, its channel and
    its server, the latter being the server of the channel. *)
Module Message.
Record t := mk { author : Member.t; channel : Channel.t }.
Definition server (m : t) : string := Channel.server (channel m).
End Message.

Module VoiceClient.
Record t := mk { channel : Channel.t }.
End VoiceClient.

(** ** The source handed out by [create_ytdl_player]

    The flags are the events of the library's stream player: [ended] is
    its [_end] event, [resumed] its [_resumed] event (set at creation),
    [after_called] records that the thread has left its run method and
    invoked the [after] callback.  The voice connection is taken to stay
    up, so that [is_done] is the [_end] event alone. *)
Module Player.
Record t := mk {
  title : string;
  started : bool;
  ended : bool;
  resumed : bool;
  after_called : bool;
  volume : Q
}.

Definition create (song : string) : t := mk song false false true false 1.

Definition is_done (p : t) : bool := ended p.
Definition start (p : t) : t :=
  mk (title p) true (ended p) (resumed p) (after_called p) (volume p).
Definition stop (p : t) : t :=
  mk (title p) (started p) true (resumed p) (after_called p) (volume p).
Definition pause (p : t) : t :=
  mk (title p) (started p) (ended p) false (after_called p) (volume p).
Definition resume (p : t) : t :=
  mk (title p) (started p) (ended p) true (after_called p) (volume p).
Definition set_volume (v : Q) (p : t) : t :=
  mk (title p) (started p) (ended p) (resumed p) (after_called p) v.

(** The thread of a started source reaches the end of its media: it
    sets [_end] itself.  A paused thread waits and cannot finish. *)
Definition finish (p : t) : option t :=
  if started p && negb (ended p) && resumed p then Some (stop p) else None.

(** The thread of a started source sees [_end] and leaves: the [after]
    callback runs, once. *)
Definition exit (p : t) : option t :=
  if started p && ended p && negb (after_called p)
  then Some (mk (title p) (started p) (ended p) (resumed p) true (volume p))
  else None.
End Player.

Module VoiceEntry.
Record t := mk {
  requester : Member.t;
  channel : Channel.t;
  player : Player.t
}.

Definition with_player (p : Player.t) (e : t) : t :=
  mk (requester e) (channel e) p.
End VoiceEntry.

(** ** What leaves the cog *)

Inductive Exn :=
| ClientException
| InvalidArgument
| AttributeError
| KeyError
| OverflowError
| OtherException.

(** The entries of [lang['MUSIC']] with the arguments they are formatted
    with.  [SKIP_VOTE_PASSED None] is the entry sent as it is (line 225),
    [SKIP_VOTE_PASSED (Some n)] the same entry formatted with
    [current_votes=n] (line 228). *)
Inductive Text :=
| NOW_PLAYING (current_song : VoiceEntry.t)
| IN_ANOTHER_VOICE_CHANNEL
| NOT_A_VOICE_CHANNEL
| READY_TO_PLAY (channel : option Channel.t)
| USER_NOT_IN_VOICE_CHANNEL
| ENQUEUE_SUCCESS (entry : VoiceEntry.t)
| VOLUME_CHANGE (volume : Q)
| NOT_PLAYING
| SKIP_REQUESTER (current_song : VoiceEntry.t) (requester : Member.t)
| SKIP_VOTE_PASSED (current_votes : option nat)
| SKIP_ALREADY_VOTED
| PROCESSING_ERROR (e : Exn).

Inductive SourceOp := OpStart | OpStop | OpPause | OpResume | OpVolume (v : Q).

Inductive TransportOp :=
| Connect (channel : Channel.t)
| MoveTo (channel : Channel.t)
| Disconnect.

Inductive Effect :=
| Say (dest : Channel.t) (text : Text)
| SendMessage (dest : Channel.t) (text : Text)
| SourceCall (op : SourceOp)
| Transport (op : TransportOp)
| CancelTask.

(** ** Actions: state, raised exceptions and the effects performed *)

Inductive Res (A : Type) :=
| Ret (a : A)
| Raise (e : Exn).
Arguments Ret {A} a.
Arguments Raise {A} e.

Definition Act (S A : Type) : Type := S → Res A * S * list Effect.

Section Act.
Context {S : Type}.

Definition ret {A} (a : A) : Act S A := λ s, (Ret a, s, []).
Definition raise {A} (e : Exn) : Act S A := λ s, (Raise e, s, []).
Definition emit (o : Effect) : Act S unit := λ s, (Ret (), s, [o]).
Definition get : Act S S := λ s, (Ret s, s, []).
Definition modify (f : S → S) : Act S unit := λ s, (Ret (), f s, []).

Definition bind {A B} (m : Act S A) (k : A → Act S B) : Act S B := λ s,
  match m s with
  | (Ret a, s1, o1) =>
      match k a s1 with (r, s2, o2) => (r, s2, o1 ++ o2) end
  | (Raise e, s1, o1) => (Raise e, s1, o1)
  end.

(** [try: m  except <those e with h e = Some _>: h e  else: k]; a state
    change made before the exception stays. *)
Definition try_else {A B} (m : Act S A) (h : Exn → option (Act S B))
    (k : A → Act S B) : Act S B := λ s,
  match m s with
  | (Ret a, s1, o1) =>
      match k a s1 with (r, s2, o2) => (r, s2, o1 ++ o2) end
  | (Raise e, s1, o1) =>
      match h e with
      | Some handler =>
          match handler s1 with (r, s2, o2) => (r, s2, o1 ++ o2) end
      | None => (Raise e, s1, o1)
      end
  end.
End Act.

Notation "x <- m ;; k" := (bind m (λ x, k))
  (at level 100, m at next level, right associativity).
Notation "m ;; k" := (bind m (λ _, k))
  (at level 100, right associativity).

Definition result {S A} (x : Res A * S * list Effect) : Res A := x.1.1.
Definition state_after {S A} (x : Res A * S * list Effect) : S := x.1.2.
Definition effects {S A} (x : Res A * S * list Effect) : list Effect := x.2.

(** ** The chat library as seen from the cog *)

Module Bot.
Section Calls.
Context {S : Type}.

(** [bot.say]: a message to the channel of the invoking message. *)
Definition say (ctx : Message.t) (text : Text) : Act S unit :=
  emit (Say (Message.channel ctx) text).

Definition send_message (dest : Channel.t) (text : Text) : Act S unit :=
  emit (SendMessage dest text).

(** Something that is not a voice channel, [None] included, is refused
    with [InvalidArgument] before any connection is attempted. *)
Definition join_voice_channel (channel : option Channel.t)
    (outcome : option Exn) : Act S VoiceClient.t :=
  match channel with
  | None => raise InvalidArgument
  | Some ch =>
      emit (Transport (Connect ch));;
      match outcome with
      | None => ret (VoiceClient.mk ch)
      | Some e => raise e
      end
  end.

Definition move_to (voice : VoiceClient.t) (channel : Channel.t)
    (outcome : option Exn) : Act S VoiceClient.t :=
  emit (Transport (MoveTo channel));;
  match outcome with
  | None => ret (VoiceClient.mk channel)
  | Some e => raise e
  end.

(** [state.voice.disconnect()]: an attribute error when [voice] is
    [None]. *)
Definition disconnect (voice : option VoiceClient.t)
    (outcome : option Exn) : Act S unit :=
  match voice with
  | None => raise AttributeError
  | Some _ =>
      emit (Transport Disconnect);;
      match outcome with
      | None => ret ()
      | Some e => raise e
      end
  end.

(** [state.voice.create_ytdl_player(song, ...)]; the [after] callback
    it is given is wired in [VoiceState.source_exit]. *)
Definition create_ytdl_player (voice : option VoiceClient.t)
    (song : string) (outcome : option Exn) : Act S Player.t :=
  match voice with
  | None => raise AttributeError
  | Some _ =>
      match outcome with
      | None => ret (Player.create song)
      | Some e => raise e
      end
  end.
End Calls.
End Bot.

(** ** [class VoiceState] *)

Module VoiceState.
(** Where the coroutine [audio_player_task] is suspended. *)
Inductive Task :=
| NotStarted   (* created by [create_task], not yet scheduled *)
| AwaitGet     (* in [await self.songs.get()], the queue was empty *)
| AwaitSend    (* in [await self.bot.send_message(...)] *)
| AwaitNext    (* in [await self.play_next_song.wait()] *)
| Cancelled.   (* cancelled, or ended by an exception *)

Record t := mk {
  current : option VoiceEntry.t;
  voice : option VoiceClient.t;
  songs : list VoiceEntry.t;
  skip_votes : gset string;
  play_next_song : bool;
  audio_player : Task
}.

(** [__init__] *)
Definition init : t := mk None None [] ∅ false NotStarted.

Definition with_current (c : option VoiceEntry.t) (self : t) : t :=
  mk c (voice self) (songs self) (skip_votes self) (play_next_song self)
     (audio_player self).
Definition with_voice (v : option VoiceClient.t) (self : t) : t :=
  mk (current self) v (songs self) (skip_votes self) (play_next_song self)
     (audio_player self).
Definition with_songs (q : list VoiceEntry.t) (self : t) : t :=
  mk (current self) (voice self) q (skip_votes self) (play_next_song self)
     (audio_player self).
Definition with_skip_votes (v : gset string) (self : t) : t :=
  mk (current self) (voice self) (songs self) v (play_next_song self)
     (audio_player self).
Definition with_play_next_song (b : bool) (self : t) : t :=
  mk (current self) (voice self) (songs self) (skip_votes self) b
     (audio_player self).
Definition with_audio_player (k : Task) (self : t) : t :=
  mk (current self) (voice self) (songs self) (skip_votes self)
     (play_next_song self) k.

Definition is_playing : Act t bool :=
  self <- get;;
  match voice self, current self with
  | Some _, Some c => ret (negb (Player.is_done (VoiceEntry.player c)))
  | _, _ => ret false
  end.

(** The property [player]: [self.current.player]. *)
Definition player : Act t Player.t :=
  self <- get;;
  match current self with
  | Some c => ret (VoiceEntry.player c)
  | None => raise AttributeError
  end.

Definition apply (op : SourceOp) : Player.t → Player.t :=
  match op with
  | OpStart => Player.start
  | OpStop => Player.stop
  | OpPause => Player.pause
  | OpResume => Player.resume
  | OpVolume v => Player.set_volume v
  end.

(** A call on [self.current.player]: it changes the source that
    [current] holds. *)
Definition call (op : SourceOp) : Act t unit :=
  self <- get;;
  match current self with
  | Some c =>
      emit (SourceCall op);;
      modify (with_current
                (Some (VoiceEntry.with_player (apply op (VoiceEntry.player c)) c)))
  | None => raise AttributeError
  end.

Definition skip : Act t unit :=
  modify (with_skip_votes ∅);;
  playing <- is_playing;;
  if playing then call OpStop else ret ().

(** [call_soon_threadsafe(self.play_next_song.set)] with the scheduled
    call done. *)
Definition toggle_next : Act t unit :=
  modify (with_play_next_song true).

(** [self.songs.put(entry)] on the unbounded queue. *)
Definition put (entry : VoiceEntry.t) : Act t unit :=
  modify (λ self, with_songs (songs self ++ [entry]) self).

(** Lines 57-59 once the queue holds an item; with an empty queue the
    task stays in [songs.get()]. *)
Definition take_song : Act t unit :=
  self <- get;;
  match songs self with
  | [] => modify (with_audio_player AwaitGet)
  | entry :: rest =>
      modify (with_songs rest);;
      modify (with_current (Some entry));;
      Bot.send_message (VoiceEntry.channel entry) (NOW_PLAYING entry);;
      modify (with_audio_player AwaitSend)
  end.

(** Line 56 and on: the top of the loop. *)
Definition next_song : Act t unit :=
  modify (with_play_next_song false);;
  take_song.

(** Lines 60-61: [wait()] returns at once when the event is set. *)
Definition start_and_wait : Act t unit :=
  call OpStart;;
  self <- get;;
  if play_next_song self then next_song
  else modify (with_audio_player AwaitNext).

(** One scheduling of [audio_player_task]: from the point where it is
    suspended to its next suspension. *)
Definition audio_player_task : Act t unit :=
  self <- get;;
  match audio_player self with
  | NotStarted => next_song
  | AwaitGet => take_song
  | AwaitSend => start_and_wait
  | AwaitNext => if play_next_song self then next_song else ret ()
  | Cancelled => ret ()
  end.

(** [self.audio_player.cancel()]: the event loop is told to cancel the
    task, which does not run again. *)
Definition cancel : Act t unit :=
  emit CancelTask;;
  modify (with_audio_player Cancelled).

(** The media of the started current source ends by itself. *)
Definition source_end : Act t unit :=
  self <- get;;
  match current self with
  | Some c =>
      match Player.finish (VoiceEntry.player c) with
      | Some p => modify (with_current (Some (VoiceEntry.with_player p c)))
      | None => ret ()
      end
  | None => ret ()
  end.

(** The thread of the current source leaves and runs
    [after=state.toggle_next] (line 150). *)
Definition source_exit : Act t unit :=
  self <- get;;
  match current self with
  | Some c =>
      match Player.exit (VoiceEntry.player c) with
      | Some p =>
          modify (with_current (Some (VoiceEntry.with_player p c)));;
          toggle_next
      | None => ret ()
      end
  | None => ret ()
  end.
End VoiceState.

(** ** [int / int]

    The quotient of two integers as a float.  The division rounds to the
    nearest double and raises [OverflowError] when that is 2^1024 or
    more, which is from [float_overflow] on: half a step above the
    largest double, 2^1024 - 2^971.  The result is kept as the exact
    rational. *)
Definition float_overflow : Z := 2 ^ 1024 - 2 ^ 970.

Definition true_div (a : Z) (b : positive) : option Q :=
  if (Z.abs a <? float_overflow * Z.pos b)%Z then Some (a # b) else None.
Arguments true_div : simpl never.

(** ** [class Music] *)

Module Music.
Record t := mk { voice_states : gmap string VoiceState.t }.

(** [__init__] *)
Definition init : t := mk ∅.

(** A method of the state object that the local [state] names. *)
Definition on {A} (state : string) (m : Act VoiceState.t A) : Act t A :=
  λ self,
    match voice_states self !! state with
    | Some st =>
        match m st with
        | (r, st', o) => (r, mk (<[state := st']> (voice_states self)), o)
        end
    | None => (Raise KeyError, self, [])
    end.

Definition get_voice_state (server : string) : Act t string :=
  self <- get;;
  match voice_states self !! server with
  | None =>
      modify (λ self, mk (<[server := VoiceState.init]> (voice_states self)));;
      ret server
  | Some _ => ret server
  end.

Definition create_voice_client (channel : option Channel.t)
    (connect : option Exn) : Act t unit :=
  voice <- Bot.join_voice_channel channel connect;;
  state <- get_voice_state (Channel.server (VoiceClient.channel voice));;
  on state (modify (VoiceState.with_voice (Some voice))).

Definition join (ctx : Message.t) (channel : option Channel.t)
    (connect : option Exn) : Act t unit :=
  let channel :=
    match channel with
    | None => Member.voice_channel (Message.author ctx)
    | Some _ => channel
    end in
  try_else (create_voice_client channel connect)
    (λ e, match e with
          | ClientException => Some (Bot.say ctx IN_ANOTHER_VOICE_CHANNEL)
          | InvalidArgument => Some (Bot.say ctx NOT_A_VOICE_CHANNEL)
          | _ => None
          end)
    (λ _, Bot.say ctx (READY_TO_PLAY channel)).

Definition summon (ctx : Message.t) (connect : option Exn) : Act t bool :=
  match Member.voice_channel (Message.author ctx) with
  | None =>
      Bot.say ctx USER_NOT_IN_VOICE_CHANNEL;;
      ret false
  | Some summoned_channel =>
      state <- get_voice_state (Message.server ctx);;
      st <- on state get;;
      match VoiceState.voice st with
      | None =>
          voice <- Bot.join_voice_channel (Some summoned_channel) connect;;
          on state (modify (VoiceState.with_voice (Some voice)))
      | Some voice =>
          voice <- Bot.move_to voice summoned_channel connect;;
          on state (modify (VoiceState.with_voice (Some voice)))
      end;;
      ret true
  end.

Definition play (ctx : Message.t) (song : string)
    (connect resolve : option Exn) : Act t unit :=
  state <- get_voice_state (Message.server ctx);;
  st <- on state get;;
  success <- match VoiceState.voice st with
             | None => summon ctx connect
             | Some _ => ret true
             end;;
  if negb success then ret ()
  else
    try_else
      (st <- on state get;;
       Bot.create_ytdl_player (VoiceState.voice st) song resolve)
      (λ e, Some (Bot.send_message (Message.channel ctx) (PROCESSING_ERROR e)))
      (λ player,
         let player := Player.set_volume (6 # 10) player in
         let entry :=
           VoiceEntry.mk (Message.author ctx) (Message.channel ctx) player in
         Bot.say ctx (ENQUEUE_SUCCESS entry);;
         on state (VoiceState.put entry)).

Definition volume (ctx : Message.t) (value : Z) : Act t unit :=
  state <- get_voice_state (Message.server ctx);;
  playing <- on state VoiceState.is_playing;;
  if playing then
    match true_div value 100 with
    | Some v =>
        on state (VoiceState.call (OpVolume v));;
        player <- on state VoiceState.player;;
        Bot.say ctx (VOLUME_CHANGE (Player.volume player))
    | None => raise OverflowError
    end
  else ret ().

Definition pause (ctx : Message.t) : Act t unit :=
  state <- get_voice_state (Message.server ctx);;
  playing <- on state VoiceState.is_playing;;
  if playing then on state (VoiceState.call OpPause) else ret ().

Definition resume (ctx : Message.t) : Act t unit :=
  state <- get_voice_state (Message.server ctx);;
  playing <- on state VoiceState.is_playing;;
  if playing then on state (VoiceState.call OpResume) else ret ().

(** [del self.voice_states[server.id]] *)
Definition del_voice_state (server : string) : Act t unit :=
  self <- get;;
  match voice_states self !! server with
  | Some _ => modify (λ self, mk (delete server (voice_states self)))
  | None => raise KeyError
  end.

(** The local [state] still names the object once it has left the dict:
    its [voice] is read before the [del]. *)
Definition stop (ctx : Message.t) (disconnect : option Exn) : Act t unit :=
  let server := Message.server ctx in
  state <- get_voice_state server;;
  playing <- on state VoiceState.is_playing;;
  (if playing then on state (VoiceState.call OpStop) else ret ());;
  try_else
    (on state VoiceState.cancel;;
     st <- on state get;;
     del_voice_state server;;
     Bot.disconnect (VoiceState.voice st) disconnect)
    (λ _, Some (ret ()))
    (λ _, ret ()).

Definition skip (ctx : Message.t) : Act t unit :=
  state <- get_voice_state (Message.server ctx);;
  playing <- on state VoiceState.is_playing;;
  if negb playing then Bot.say ctx NOT_PLAYING
  else
    let voter := Message.author ctx in
    st <- on state get;;
    match VoiceState.current st with
    | None => raise AttributeError
    | Some current =>
        if Member.eqb voter (VoiceEntry.requester current) then
          Bot.say ctx (SKIP_REQUESTER current (VoiceEntry.requester current));;
          on state VoiceState.skip
        else if negb (bool_decide (Member.id voter ∈ VoiceState.skip_votes st)) then
          on state (modify (λ st, VoiceState.with_skip_votes
                                    ({[Member.id voter]} ∪ VoiceState.skip_votes st) st));;
          st <- on state get;;
          let total_votes := size (VoiceState.skip_votes st) in
          if bool_decide (3 ≤ total_votes) then
            Bot.say ctx (SKIP_VOTE_PASSED None);;
            on state VoiceState.skip
          else Bot.say ctx (SKIP_VOTE_PASSED (Some total_votes))
        else Bot.say ctx SKIP_ALREADY_VOTED
    end.

Definition playing (ctx : Message.t) : Act t unit :=
  state <- get_voice_state (Message.server ctx);;
  st <- on state get;;
  match VoiceState.current st with
  | None => Bot.say ctx NOT_PLAYING
  | Some current => Bot.say ctx (NOW_PLAYING current)
  end.
End Music.

(** ** The event loop

    The commands of the cog, the player task of a server and the thread
    of its current source take turns. *)

Inductive Command :=
| Join (channel : option Channel.t) (connect : option Exn)
| Summon (connect : option Exn)
| Play (song : string) (connect resolve : option Exn)
| Volume (value : Z)
| Pause
| Resume
| Stop (disconnect : option Exn)
| Skip
| Playing.

Definition invoke (ctx : Message.t) (c : Command) : Act Music.t unit :=
  match c with
  | Join channel connect => Music.join ctx channel connect
  | Summon connect => Music.summon ctx connect;; ret ()
  | Play song connect resolve => Music.play ctx song connect resolve
  | Volume value => Music.volume ctx value
  | Pause => Music.pause ctx
  | Resume => Music.resume ctx
  | Stop disconnect => Music.stop ctx disconnect
  | Skip => Music.skip ctx
  | Playing => Music.playing ctx
  end.

(** A turn of something that belongs to the state of [server]; nothing
    happens when the server has no state.  A task that raises is over:
    it does not run again. *)
Definition turn (server : string) (m : Act VoiceState.t unit)
    : Act Music.t unit :=
  self <- get;;
  match Music.voice_states self !! server with
  | Some _ =>
      try_else (Music.on server m)
        (λ _, Some (Music.on server
                      (modify (VoiceState.with_audio_player VoiceState.Cancelled))))
        (λ _, ret ())
  | None => ret ()
  end.

Inductive Event :=
| Invoke (ctx : Message.t) (c : Command)
| Schedule (server : string)
| SourceEnd (server : string)
| SourceExit (server : string).

Definition step (ev : Event) : Act Music.t unit :=
  match ev with
  | Invoke ctx c => try_else (invoke ctx c) (λ _, Some (ret ())) (λ _, ret ())
  | Schedule server => turn server VoiceState.audio_player_task
  | SourceEnd server => turn server VoiceState.source_end
  | SourceExit server => turn server VoiceState.source_exit
  end.

Fixpoint run (evs : list Event) : Act Music.t unit :=
  match evs with
  | [] => ret ()
  | ev :: evs => step ev;; run evs
  end.

(** ** Observations used by the statements *)

(** The state that [get_voice_state] hands out for a server: the
    registered one, or a fresh one. *)
Definition state_of (server : string) (self : Music.t) : VoiceState.t :=
  default VoiceState.init (Music.voice_states self !! server).

(** The entries announced by the player task of [server], in order: the
    [NOW_PLAYING] messages sent to a channel of that server (line 58). *)
Fixpoint announced (server : string) (o : list Effect) : list VoiceEntry.t :=
  match o with
  | SendMessage dest (NOW_PLAYING entry) :: o =>
      if bool_decide (Channel.server dest = server)
      then entry :: announced server o else announced server o
  | _ :: o => announced server o
  | [] => []
  end.

(** The entries that [play] accepted for [server], in order: the
    [ENQUEUE_SUCCESS] replies in a channel of that server (line 157); each
    is followed by the [put] of the entry within the same command. *)
Fixpoint enqueued (server : string) (o : list Effect) : list VoiceEntry.t :=
  match o with
  | Say dest (ENQUEUE_SUCCESS entry) :: o =>
      if bool_decide (Channel.server dest = server)
      then entry :: enqueued server o else enqueued server o
  | _ :: o => enqueued server o
  | [] => []
  end.

(** [stop] invoked in [server]. *)
Definition stops (server : string) (ev : Event) : bool :=
  match ev with
  | Invoke ctx (Stop _) => bool_decide (Message.server ctx = server)
  | _ => false
  end.

(** A small cast for the examples: two text and voice channels of one
    server, the requester [ann] and three listeners. *)
Definition lounge : Channel.t := Channel.mk "lounge" "guild".
Definition general : Channel.t := Channel.mk "general" "guild".
Definition ann : Member.t := Member.mk "ann" (Some lounge).
Definition bob : Member.t := Member.mk "bob" (Some lounge).
Definition cyd : Member.t := Member.mk "cyd" None.
Definition dee : Member.t := Member.mk "dee" None.
Definition by_ (m : Member.t) : Message.t := Message.mk m general.

(** [ann] has queued song A, the task has announced and started it. *)
Definition song_a_playing : Music.t :=
  state_after
    (run [Invoke (by_ ann) (Play "A" None None); Schedule "guild"; Schedule "guild"]
       Music.init).

(** What a listener of [server] can tell of its playback: the queue, the
    current entry and the votes. *)
Definition playback (server : string) (self : Music.t)
    : list VoiceEntry.t * option VoiceEntry.t * gset string :=
  let st := state_of server self in
  (VoiceState.songs st, VoiceState.current st, VoiceState.skip_votes st).

(** Song A as [ann] queued it, and as the task started it. *)
Definition song_a : VoiceEntry.t :=
  VoiceEntry.mk ann general (Player.set_volume (6 # 10) (Player.create "A")).
Definition song_a_started : VoiceEntry.t :=
  VoiceEntry.with_player (Player.start (VoiceEntry.player song_a)) song_a.

(** ** Invariants of the registry *)

(** The playback of every server is as in [self], and the registry
    differs from that of [self] at most at [server]. *)
Definition kept (server : string) (self self' : Music.t) : Prop :=
  ∀ k, playback k self' = playback k self
       ∧ (k ≠ server →
          Music.voice_states self' !! k = Music.voice_states self !! k).

(** A state that has no voice client has nothing queued and nothing
    current, and every queued entry was requested in a channel of the
    server the state is registered for. *)
Definition wf (server : string) (st : VoiceState.t) : Prop :=
  (VoiceState.voice st = None →
   VoiceState.current st = None ∧ VoiceState.songs st = [])
  ∧ Forall (λ e, Channel.server (VoiceEntry.channel e) = server)
      (VoiceState.songs st).

Definition sound (self : Music.t) : Prop :=
  ∀ k st, Music.voice_states self !! k = Some st → wf k st.

(** The announced entries followed by the queue are the queue before
    followed by the accepted entries. *)
Definition fifo (k : string) (self : Music.t) (o : list Effect)
    (self' : Music.t) : Prop :=
  announced k o ++ VoiceState.songs (state_of k self')
    = VoiceState.songs (state_of k self) ++ enqueued k o.

(** ** The rest of the cog *)

Section Str.
(** [lang['MUSIC']['VOICE_ENTRY']] and the call
    [fmt.format(player=self.player, requester=self.requester)]. *)
Variable VOICE_ENTRY : string.
Variable format : string → Player.t → Member.t → string.

(** [' [length: {0[0]}m {0[1]}s]'.format(divmod(duration, 60))] *)
Definition length_suffix (duration : Z) : string :=
  " [length: " +:+ pretty (duration `div` 60)%Z +:+ "m "
    +:+ pretty (duration `mod` 60)%Z +:+ "s]".

(** [VoiceEntry.__str__]; [duration] is [self.player.duration], an integer
    number of seconds or [None], and [if duration:] fails for [None] and
    for 0. *)
Definition VoiceEntry_str (duration : option Z) (self : VoiceEntry.t)
    : string :=
  let fmt := VOICE_ENTRY in
  let fmt :=
    match duration with
    | Some d => if bool_decide (d ≠ 0%Z) then fmt +:+ length_suffix d else fmt
    | None => fmt
    end in
  format fmt (VoiceEntry.player self) (VoiceEntry.requester self).
End Str.

(** The body of the loop of [Music.__unload] for one state: the task is
    cancelled and, when there is a voice client, its [disconnect] is
    handed to the event loop; whatever is raised is dropped. *)
Definition unload_state : Act VoiceState.t unit :=
  try_else
    (VoiceState.cancel;;
     self <- get;;
     match VoiceState.voice self with
     | Some _ => emit (Transport Disconnect)
     | None => ret ()
     end)
    (λ _, Some (ret ()))
    (λ _, ret ()).

Fixpoint for_each_state (states : list string) (m : Act VoiceState.t unit)
    : Act Music.t unit :=
  match states with
  | [] => ret ()
  | state :: states => Music.on state m;; for_each_state states m
  end.

(** [Music.__unload]: [for state in self.voice_states.values()].  The
    states are gone through in the order of the map, which is not the
    insertion order of the dict. *)
Definition unload : Act Music.t unit :=
  self <- get;;
  for_each_state (map_to_list (Music.voice_states self)).*1 unload_state.

(** The calls of [__unload] for one state. *)
Definition unload_calls (st : VoiceState.t) : list Effect :=
  CancelTask ::
  match VoiceState.voice st with
  | Some _ => [Transport Disconnect]
  | None => []
  end.

Definition is_cancel (o : Effect) : bool :=
  match o with
  | CancelTask => true
  | _ => false
  end.

(** ** More observations *)

(** A player as [play] puts it in the queue. *)
Definition fresh (p : Player.t) : Prop :=
  p = Player.set_volume (6 # 10) (Player.create (Player.title p)).

(** How the suspension point of the task, [current] and the event
    [play_next_song] go together. *)
Definition coherent (st : VoiceState.t) : Prop :=
  match VoiceState.audio_player st, VoiceState.current st with
  | VoiceState.NotStarted, None => VoiceState.play_next_song st = false
  | VoiceState.AwaitGet, None => VoiceState.play_next_song st = false
  | VoiceState.AwaitGet, Some c =>
      VoiceState.play_next_song st = false
      ∧ Player.started (VoiceEntry.player c) = true
      ∧ Player.ended (VoiceEntry.player c) = true
      ∧ Player.after_called (VoiceEntry.player c) = true
  | VoiceState.AwaitSend, Some c =>
      VoiceState.play_next_song st = false
      ∧ Player.started (VoiceEntry.player c) = false
      ∧ Player.after_called (VoiceEntry.player c) = false
  | VoiceState.AwaitNext, Some c =>
      Player.started (VoiceEntry.player c) = true
      ∧ VoiceState.play_next_song st = Player.after_called (VoiceEntry.player c)
      ∧ (Player.after_called (VoiceEntry.player c) = true →
         Player.ended (VoiceEntry.player c) = true)
  | _, _ => False
  end.

Definition tidy (st : VoiceState.t) : Prop :=
  Forall (λ e, fresh (VoiceEntry.player e)) (VoiceState.songs st)
  ∧ size (VoiceState.skip_votes st) ≤ 2
  ∧ coherent st.

Definition all_states (P : VoiceState.t → Prop) (self : Music.t) : Prop :=
  ∀ k st, Music.voice_states self !! k = Some st → P st.

(** The server whose state an event works on, if any. *)
Definition concerns (ev : Event) : option string :=
  match ev with
  | Invoke ctx (Join channel _) =>
      Channel.server <$>
        match channel with
        | None => Member.voice_channel (Message.author ctx)
        | Some _ => channel
        end
  | Invoke ctx _ => Some (Message.server ctx)
  | Schedule server | SourceEnd server | SourceExit server => Some server
  end.

Definition is_skip (ev : Event) : bool :=
  match ev with
  | Invoke _ Skip => true
  | _ => false
  end.

(** The registry with the state of [server], registered or fresh,
    replaced by [st]. *)
Definition registered (server : string) (st : VoiceState.t) (self : Music.t)
    : Music.t :=
  Music.mk (<[server := st]> (Music.voice_states self)).

(** Song B as [bob] queued it. *)
Definition song_b : VoiceEntry.t :=
  VoiceEntry.mk bob general (Player.set_volume (6 # 10) (Player.create "B")).

(** [ann] and [bob] have queued songs A and B, and the task has started
    song A. *)
Definition a_playing_b_queued : Music.t :=
  state_after
    (run [Invoke (by_ ann) (Play "A" None None);
          Invoke (by_ bob) (Play "B" None None);
          Schedule "guild"; Schedule "guild"]
       Music.init).

(** ** One song after the other *)

(** The turns that take the task of [server] through one song: the task
    takes the song and announces it; the announcement is delivered and
    the task starts the source; the media ends; the thread of the source
    leaves and runs the [after] callback. *)
Definition one_song (server : string) : list Event :=
  [Schedule server; Schedule server; SourceEnd server; SourceExit server].

Fixpoint play_through (n : nat) (server : string) : list Event :=
  match n with
  | 0 => []
  | S n => one_song server ++ play_through n server
  end.

(** The task takes the next song at its next turn: it has not run yet,
    it waits in [songs.get()], or it waits for [play_next_song] and the
    event is set. *)
Definition ready (st : VoiceState.t) : Prop :=
  VoiceState.audio_player st = VoiceState.NotStarted
  ∨ (VoiceState.audio_player st = VoiceState.AwaitGet
     ∧ VoiceState.play_next_song st = false)
  ∨ (VoiceState.audio_player st = VoiceState.AwaitNext
     ∧ VoiceState.play_next_song st = true).

(** An entry whose source was started, has ended and has run its
    callback. *)
Definition finished (e : VoiceEntry.t) : VoiceEntry.t :=
  let p := VoiceEntry.player e in
  VoiceEntry.with_player
    (Player.mk (Player.title p) true true (Player.resumed p) true
       (Player.volume p))
    e.

(** The state of a task that has played [e] to its end, with [rest]
    still queued. *)
Definition after_song (e : VoiceEntry.t) (rest : list VoiceEntry.t)
    (st : VoiceState.t) : VoiceState.t :=
  VoiceState.mk (Some (finished e)) (VoiceState.voice st) rest
    (VoiceState.skip_votes st) true VoiceState.AwaitNext.

Fixpoint after_songs (q : list VoiceEntry.t) (st : VoiceState.t)
    : VoiceState.t :=
  match q with
  | [] => st
  | e :: rest => after_songs rest (after_song e rest st)
  end.

(** What the task sends and calls for the entries of [q], one after the
    other: the announcement of an entry, then the start of its source. *)
Fixpoint played (q : list VoiceEntry.t) : list Effect :=
  match q with
  | [] => []
  | e :: q =>
      SendMessage (VoiceEntry.channel e) (NOW_PLAYING e)
        :: SourceCall OpStart :: played q
  end.

(** Requests to [play]: the invoking message and the song.  Each is
    resolved ([create_ytdl_player] returns). *)
Definition entry_of (req : Message.t * string) : VoiceEntry.t :=
  VoiceEntry.mk (Message.author req.1) (Message.channel req.1)
    (Player.set_volume (6 # 10) (Player.create req.2)).

Definition plays (reqs : list (Message.t * string)) : list Event :=
  (λ req, Invoke req.1 (Play req.2 None None)) <$> reqs.

Definition replies (reqs : list (Message.t * string)) : list Effect :=
  (λ req, Say (Message.channel req.1) (ENQUEUE_SUCCESS (entry_of req))) <$> reqs.

(** [ann] has joined the voice channel [lounge]; nothing is queued. *)
Definition joined : Music.t :=
  state_after (Music.join (by_ ann) None None Music.init).

(** * Properties *)

Ltac unfold_acts :=
  unfold step, turn, invoke,
    Music.skip, Music.playing, Music.stop, Music.pause, Music.resume,
    Music.volume, Music.play, Music.summon, Music.join,
    Music.create_voice_client, Music.del_voice_state,
    Music.get_voice_state, Music.on,
    VoiceState.audio_player_task, VoiceState.start_and_wait,
    VoiceState.next_song, VoiceState.take_song,
    VoiceState.source_end, VoiceState.source_exit,
    VoiceState.skip, VoiceState.is_playing, VoiceState.call,
    VoiceState.player, VoiceState.cancel, VoiceState.put,
    VoiceState.toggle_next,
    Bot.say, Bot.send_message, Bot.join_voice_channel, Bot.move_to,
    Bot.disconnect, Bot.create_ytdl_player,
    try_else, bind, ret, get, modify, emit, raise.

(** Case analysis on a scrutinee that contains no other case analysis. *)
Ltac case_leaf :=
  match goal with
  | |- context [match ?x with _ => _ end] =>
      lazymatch x with
      | context [match _ with _ => _ end] => fail
      | _ => destruct x eqn:?
      end
  end.

Ltac bool_hyps :=
  repeat match goal with
    | H : bool_decide _ = true |- _ => apply bool_decide_eq_true in H
    | H : bool_decide _ = false |- _ => apply bool_decide_eq_false in H
    | H : negb _ = true |- _ => apply negb_true_iff in H
    | H : negb _ = false |- _ => apply negb_false_iff in H
    end.

Ltac crunch :=
  repeat (cbn;
          first [ rewrite lookup_insert_eq
                | rewrite lookup_delete_eq
                | match goal with
                  | H : ?x = _ |- context [match ?x with _ => _ end] => rewrite H
                  end
                | case_leaf ]);
  cbn.

Lemma is_playing_true (st : VoiceState.t) :
  VoiceState.is_playing st = (Ret true, st, []) ↔
  ∃ v c, VoiceState.voice st = Some v ∧ VoiceState.current st = Some c ∧
         Player.is_done (VoiceEntry.player c) = false.
Proof.
  unfold VoiceState.is_playing, bind, get, ret. split.
  - destruct (VoiceState.voice st) as [v|], (VoiceState.current st) as [c|];
      cbn; intros H; try discriminate H.
    destruct (Player.is_done (VoiceEntry.player c)) eqn:E; [discriminate H|].
    eauto.
  - intros (v & c & -> & -> & ->). reflexivity.
Qed.

Lemma is_playing_pure (st : VoiceState.t) :
  ∃ b, VoiceState.is_playing st = (Ret b, st, []).
Proof.
  unfold VoiceState.is_playing, bind, get, ret.
  destruct (VoiceState.voice st), (VoiceState.current st); cbn; eauto.
Qed.

Lemma is_playing_false (st : VoiceState.t) :
  VoiceState.is_playing st = (Ret false, st, []) ↔
  VoiceState.is_playing st ≠ (Ret true, st, []).
Proof.
  destruct (is_playing_pure st) as [[] ->]; split; congruence.
Qed.

Lemma music_eta (self : Music.t) : Music.mk (Music.voice_states self) = self.
Proof. by destruct self. Qed.

Lemma insert_same (self : Music.t) k st :
  Music.voice_states self !! k = Some st →
  Music.mk (<[k := st]> (Music.voice_states self)) = self.
Proof. intros H. rewrite insert_id by done. apply music_eta. Qed.

(** The vote of a listener who is not the requester, in a state where
    something plays. *)
Lemma skip_vote (self : Music.t) (ctx : Message.t) (st : VoiceState.t)
    (c : VoiceEntry.t) :
  Music.voice_states self !! Message.server ctx = Some st →
  VoiceState.is_playing st = (Ret true, st, []) →
  VoiceState.current st = Some c →
  Member.id (Message.author ctx) ≠ Member.id (VoiceEntry.requester c) →
  Music.skip ctx self =
    let voter := Member.id (Message.author ctx) in
    let votes := {[voter]} ∪ VoiceState.skip_votes st in
    if bool_decide (voter ∈ VoiceState.skip_votes st) then
      (Ret (), self, [Say (Message.channel ctx) SKIP_ALREADY_VOTED])
    else if bool_decide (3 ≤ size votes) then
      (Ret (),
       Music.mk (<[Message.server ctx :=
                     VoiceState.with_current
                       (Some (VoiceEntry.with_player
                                (Player.stop (VoiceEntry.player c)) c))
                       (VoiceState.with_skip_votes ∅ st)]>
                   (Music.voice_states self)),
       [Say (Message.channel ctx) (SKIP_VOTE_PASSED None); SourceCall OpStop])
    else
      (Ret (),
       Music.mk (<[Message.server ctx := VoiceState.with_skip_votes votes st]>
                   (Music.voice_states self)),
       [Say (Message.channel ctx) (SKIP_VOTE_PASSED (Some (size votes)))]).
Proof.
  intros Hst Hplay Hc Hne.
  apply is_playing_true in Hplay as (v & c' & Hv & Hc' & Hd).
  assert (c' = c) as -> by congruence.
  assert (Member.eqb (Message.author ctx) (VoiceEntry.requester c) = false) as Heqb
    by (by apply bool_decide_eq_false_2).
  unfold_acts. crunch; bool_hyps; try congruence.
  all: rewrite ?insert_insert_eq, ?(insert_same _ _ _ Hst); reflexivity.
Qed.

(** The vote of the requester of the current entry. *)
Lemma skip_requester (self : Music.t) (ctx : Message.t) (st : VoiceState.t)
    (c : VoiceEntry.t) :
  Music.voice_states self !! Message.server ctx = Some st →
  VoiceState.is_playing st = (Ret true, st, []) →
  VoiceState.current st = Some c →
  Member.id (Message.author ctx) = Member.id (VoiceEntry.requester c) →
  Music.skip ctx self =
    (Ret (),
     Music.mk (<[Message.server ctx :=
                   VoiceState.with_current
                     (Some (VoiceEntry.with_player
                              (Player.stop (VoiceEntry.player c)) c))
                     (VoiceState.with_skip_votes ∅ st)]>
                 (Music.voice_states self)),
     [Say (Message.channel ctx) (SKIP_REQUESTER c (VoiceEntry.requester c));
      SourceCall OpStop]).
Proof.
  intros Hst Hplay Hc Heq.
  apply is_playing_true in Hplay as (v & c' & Hv & Hc' & Hd).
  assert (c' = c) as -> by congruence.
  assert (Member.eqb (Message.author ctx) (VoiceEntry.requester c) = true) as Heqb
    by (by apply bool_decide_eq_true_2).
  unfold_acts. crunch; bool_hyps; try congruence.
  all: rewrite ?insert_insert_eq, ?(insert_same _ _ _ Hst); reflexivity.
Qed.

Lemma size_add_vote (voter : string) (votes : gset string) :
  voter ∉ votes → size ({[voter]} ∪ votes) = S (size votes).
Proof.
  intros H. rewrite size_union by set_solver. by rewrite size_singleton.
Qed.

Lemma step_invoke (ctx : Message.t) (c : Command) (self s' : Music.t)
    (o : list Effect) :
  invoke ctx c self = (Ret (), s', o) →
  step (Invoke ctx c) self = (Ret (), s', o).
Proof.
  intros H. unfold step, try_else. rewrite H. cbn. by rewrite app_nil_r.
Qed.

(** C1. In a state where an entry plays, a listener who is not its
    requester and whose id is in [skip_votes] gets [SKIP_ALREADY_VOTED]
    and nothing changes; one whose id is not in [skip_votes] is added,
    and as long as the set then has fewer than 3 ids the reply carries
    its size; with 3 ids or more the vote passes, the set is cleared and
    the current source is stopped.  From an empty set three distinct
    listeners get the counts 1 and 2 and then the passed vote. *)
Theorem vote_skip_quorum (self : Music.t) (ctx : Message.t)
    (st : VoiceState.t) (c : VoiceEntry.t) :
  let server := Message.server ctx in
  let voter := Member.id (Message.author ctx) in
  let votes := VoiceState.skip_votes st in
  let ended :=
    VoiceState.with_current
      (Some (VoiceEntry.with_player (Player.stop (VoiceEntry.player c)) c))
      (VoiceState.with_skip_votes ∅ st) in
  Music.voice_states self !! server = Some st →
  VoiceState.is_playing st = (Ret true, st, []) →
  VoiceState.current st = Some c →
  voter ≠ Member.id (VoiceEntry.requester c) →
  (voter ∈ votes →
     Music.skip ctx self =
       (Ret (), self, [Say (Message.channel ctx) SKIP_ALREADY_VOTED]))
  ∧ (voter ∉ votes → S (size votes) < 3 →
     Music.skip ctx self =
       (Ret (),
        Music.mk (<[server := VoiceState.with_skip_votes ({[voter]} ∪ votes) st]>
                    (Music.voice_states self)),
        [Say (Message.channel ctx) (SKIP_VOTE_PASSED (Some (S (size votes))))]))
  ∧ (voter ∉ votes → 3 ≤ S (size votes) →
     Music.skip ctx self =
       (Ret (),
        Music.mk (<[server := ended]> (Music.voice_states self)),
        [Say (Message.channel ctx) (SKIP_VOTE_PASSED None); SourceCall OpStop])
     ∧ VoiceState.is_playing ended = (Ret false, ended, []))
  ∧ (∀ ctx2 ctx3 : Message.t,
       let voter2 := Member.id (Message.author ctx2) in
       let voter3 := Member.id (Message.author ctx3) in
       votes = ∅ →
       Message.server ctx2 = server → Message.server ctx3 = server →
       voter2 ≠ Member.id (VoiceEntry.requester c) →
       voter3 ≠ Member.id (VoiceEntry.requester c) →
       voter ≠ voter2 → voter ≠ voter3 → voter2 ≠ voter3 →
       run [Invoke ctx Skip; Invoke ctx2 Skip; Invoke ctx3 Skip] self =
         (Ret (),
          Music.mk (<[server := ended]> (Music.voice_states self)),
          [Say (Message.channel ctx) (SKIP_VOTE_PASSED (Some 1));
           Say (Message.channel ctx2) (SKIP_VOTE_PASSED (Some 2));
           Say (Message.channel ctx3) (SKIP_VOTE_PASSED None);
           SourceCall OpStop])).
Proof.
  intros server voter votes ended Hst Hplay Hc Hne.
  pose proof (skip_vote self ctx st c Hst Hplay Hc Hne) as Hskip.
  cbn zeta in Hskip. fold voter votes server in Hskip.
  split; [|split; [|split]].
  - intros Hin. rewrite Hskip. rewrite bool_decide_eq_true_2 by done.
    reflexivity.
  - intros Hin Hlt. rewrite Hskip, bool_decide_eq_false_2 by done.
    rewrite size_add_vote by done. rewrite bool_decide_eq_false_2 by lia.
    reflexivity.
  - intros Hin Hge. split.
    + rewrite Hskip, bool_decide_eq_false_2 by done.
      rewrite size_add_vote by done.
      rewrite bool_decide_eq_true_2 by done. reflexivity.
    + apply is_playing_true in Hplay as (v & c' & Hv & Hc' & Hd).
      unfold VoiceState.is_playing, bind, get. cbn. by rewrite Hv.
  - intros ctx2 ctx3 voter2 voter3 Hempty Hs2 Hs3 Hn2 Hn3 H12 H13 H23.
    apply is_playing_true in Hplay as Hplay'.
    destruct Hplay' as (v & c' & Hv & Hc' & Hd).
    set (st1 := VoiceState.with_skip_votes ({[voter]} ∪ votes) st).
    set (st2 := VoiceState.with_skip_votes ({[voter2]} ∪ ({[voter]} ∪ votes)) st).
    assert (Hp1 : VoiceState.is_playing st1 = (Ret true, st1, []))
      by (apply is_playing_true; eauto).
    assert (Hp2 : VoiceState.is_playing st2 = (Ret true, st2, []))
      by (apply is_playing_true; eauto).
    set (m1 := Music.mk (<[server := st1]> (Music.voice_states self))).
    set (m2 := Music.mk (<[server := st2]> (Music.voice_states self))).
    assert (Hsz : size votes = 0) by (by rewrite Hempty, size_empty).
    assert (Hv1 : voter ∉ votes) by (rewrite Hempty; apply not_elem_of_empty).
    assert (Hv2 : voter2 ∉ {[voter]} ∪ votes).
    { rewrite Hempty, union_empty_r_L. apply not_elem_of_singleton. congruence. }
    assert (Hv3 : voter3 ∉ {[voter2]} ∪ ({[voter]} ∪ votes)).
    { rewrite Hempty, union_empty_r_L, not_elem_of_union, !not_elem_of_singleton.
      split; congruence. }
    assert (H1 : Music.skip ctx self =
                 (Ret (), m1, [Say (Message.channel ctx) (SKIP_VOTE_PASSED (Some 1))])).
    { rewrite Hskip, bool_decide_eq_false_2 by done.
      rewrite size_add_vote, Hsz by done.
      rewrite bool_decide_eq_false_2 by lia. reflexivity. }
    assert (H2 : Music.skip ctx2 m1 =
                 (Ret (), m2, [Say (Message.channel ctx2) (SKIP_VOTE_PASSED (Some 2))])).
    { rewrite (skip_vote m1 ctx2 st1 c); try done.
      - cbn. fold voter2 votes.
        rewrite bool_decide_eq_false_2 by done.
        rewrite !size_add_vote, Hsz by done.
        rewrite bool_decide_eq_false_2 by lia.
        unfold m1, m2, st1, st2. cbn. rewrite Hs2.
        by rewrite insert_insert_eq.
      - rewrite Hs2. unfold m1. cbn. apply lookup_insert_eq. }
    assert (H3 : Music.skip ctx3 m2 =
                 (Ret (), Music.mk (<[server := ended]> (Music.voice_states self)),
                  [Say (Message.channel ctx3) (SKIP_VOTE_PASSED None);
                   SourceCall OpStop])).
    { rewrite (skip_vote m2 ctx3 st2 c); try done.
      - cbn. fold voter3 voter2 votes.
        rewrite bool_decide_eq_false_2 by done.
        rewrite !size_add_vote, Hsz by done.
        rewrite bool_decide_eq_true_2 by lia.
        unfold m2, st2, ended. cbn. rewrite Hs3.
        by rewrite insert_insert_eq.
      - rewrite Hs3. unfold m2. cbn. apply lookup_insert_eq. }
    unfold run. unfold bind at 1.
    rewrite (step_invoke ctx Skip _ _ _ H1). unfold bind at 1.
    rewrite (step_invoke ctx2 Skip _ _ _ H2). unfold bind at 1.
    rewrite (step_invoke ctx3 Skip _ _ _ H3). reflexivity.
Qed.

(** C1, witness: [bob] votes while song A of [ann] plays. *)
Lemma vote_skip_quorum_witness :
  let st := state_of "guild" song_a_playing in
  Music.skip (by_ bob) song_a_playing =
    (Ret (),
     Music.mk (<["guild" := VoiceState.with_skip_votes
                              ({["bob"]} ∪ VoiceState.skip_votes st) st]>
                 (Music.voice_states song_a_playing)),
     [Say general (SKIP_VOTE_PASSED (Some 1))]).
Proof.
  intros st.
  pose proof (vote_skip_quorum song_a_playing (by_ bob) st
                (VoiceEntry.mk ann general
                   (Player.start
                      (Player.set_volume (6 # 10) (Player.create "A")))))
    as H.
  cbn zeta in H.
  destruct H as (_ & H & _);
    [reflexivity | reflexivity | reflexivity | discriminate |].
  apply H; [vm_compute; set_solver | vm_compute; lia].
Defined.

Lemma voice_state_skip (st : VoiceState.t) (c : VoiceEntry.t) :
  VoiceState.is_playing st = (Ret true, st, []) →
  VoiceState.current st = Some c →
  VoiceState.skip st =
    (Ret (),
     VoiceState.with_current
       (Some (VoiceEntry.with_player (Player.stop (VoiceEntry.player c)) c))
       (VoiceState.with_skip_votes ∅ st),
     [SourceCall OpStop]).
Proof.
  intros (v & c' & Hv & Hc' & Hd)%is_playing_true Hc.
  assert (c' = c) as -> by congruence.
  unfold_acts. crunch; bool_hyps; congruence.
Qed.

Lemma ended_not_playing (st : VoiceState.t) (c : VoiceEntry.t) :
  let ended :=
    VoiceState.with_current
      (Some (VoiceEntry.with_player (Player.stop (VoiceEntry.player c)) c)) st in
  VoiceState.is_playing ended = (Ret false, ended, []).
Proof.
  unfold VoiceState.is_playing, bind, get. cbn.
  by destruct (VoiceState.voice st).
Qed.

(** C2. In a state where an entry plays, [skip] invoked by the requester
    of that entry replies [SKIP_REQUESTER] and does what
    [VoiceState.skip] does: [skip_votes] is cleared and the current
    source is stopped, so that it reports done, whatever [skip_votes]
    held before; the requester's id is not in [skip_votes] afterwards,
    and the queue is as it was. *)
Theorem requester_skip_forces (self : Music.t) (ctx : Message.t)
    (st : VoiceState.t) (c : VoiceEntry.t) :
  let server := Message.server ctx in
  let ended :=
    VoiceState.with_current
      (Some (VoiceEntry.with_player (Player.stop (VoiceEntry.player c)) c))
      (VoiceState.with_skip_votes ∅ st) in
  Music.voice_states self !! server = Some st →
  VoiceState.is_playing st = (Ret true, st, []) →
  VoiceState.current st = Some c →
  Member.id (Message.author ctx) = Member.id (VoiceEntry.requester c) →
  Music.skip ctx self =
    (Ret (),
     Music.mk (<[server := ended]> (Music.voice_states self)),
     [Say (Message.channel ctx) (SKIP_REQUESTER c (VoiceEntry.requester c));
      SourceCall OpStop])
  ∧ VoiceState.skip st = (Ret (), ended, [SourceCall OpStop])
  ∧ VoiceState.skip_votes ended = ∅
  ∧ (Member.id (Message.author ctx) ∉ VoiceState.skip_votes ended)
  ∧ VoiceState.is_playing ended = (Ret false, ended, [])
  ∧ (∃ c', VoiceState.current ended = Some c' ∧
           Player.is_done (VoiceEntry.player c') = true)
  ∧ VoiceState.songs ended = VoiceState.songs st.
Proof.
  intros server ended Hst Hplay Hc Heq.
  split; [by apply skip_requester|].
  split; [by apply voice_state_skip|].
  split; [reflexivity|].
  split; [cbn; set_solver|].
  split; [apply (ended_not_playing (VoiceState.with_skip_votes ∅ st))|].
  split; [|reflexivity].
  eexists. split; reflexivity.
Qed.

(** C2, witness: [ann], who requested song A, skips it while [bob] has
    voted. *)
Lemma requester_skip_forces_witness :
  let self := state_after (Music.skip (by_ bob) song_a_playing) in
  ∃ ended,
    state_after (Music.skip (by_ ann) self) =
      Music.mk (<["guild" := ended]> (Music.voice_states self))
    ∧ VoiceState.skip_votes ended = ∅.
Proof.
  intros self.
  pose proof (requester_skip_forces self (by_ ann) (state_of "guild" self)
                (VoiceEntry.mk ann general
                   (Player.start
                      (Player.set_volume (6 # 10) (Player.create "A")))))
    as H.
  cbn zeta in H.
  destruct H as (H & _ & Hvotes & _);
    [reflexivity | reflexivity | reflexivity | reflexivity |].
  eexists. split; [by rewrite H | exact Hvotes].
Defined.

(** [stop] always returns and always unregisters the state of its
    server. *)
Lemma stop_unregisters (self : Music.t) (ctx : Message.t) (d : option Exn) :
  result (Music.stop ctx d self) = Ret ()
  ∧ state_after (Music.stop ctx d self) =
      Music.mk (delete (Message.server ctx) (Music.voice_states self)).
Proof.
  unfold result, state_after. unfold_acts.
  crunch; rewrite ?delete_insert_eq; try done.
Qed.

Lemma stop_unregistered (self : Music.t) (ctx : Message.t) (d : option Exn) :
  Music.voice_states self !! Message.server ctx = None →
  Music.stop ctx d self = (Ret (), self, [CancelTask]).
Proof.
  intros H. unfold_acts. unfold VoiceState.init.
  crunch; rewrite ?delete_insert_eq; try done.
  all: rewrite delete_id by done; by rewrite music_eta.
Qed.

(** [stop] while an entry plays: the source is stopped, the task is
    cancelled, the voice client is disconnected, in this order. *)
Lemma stop_playing (self : Music.t) (ctx : Message.t) (d : option Exn)
    (st : VoiceState.t) :
  Music.voice_states self !! Message.server ctx = Some st →
  VoiceState.is_playing st = (Ret true, st, []) →
  Music.stop ctx d self =
    (Ret (), Music.mk (delete (Message.server ctx) (Music.voice_states self)),
     [SourceCall OpStop; CancelTask; Transport Disconnect]).
Proof.
  intros Hst (v' & c & Hv' & Hc & Hd)%is_playing_true.
  unfold_acts. crunch; bool_hyps; rewrite ?delete_insert_eq; congruence.
Qed.

(** [stop] while nothing plays. *)
Lemma stop_idle (self : Music.t) (ctx : Message.t) (d : option Exn)
    (st : VoiceState.t) :
  Music.voice_states self !! Message.server ctx = Some st →
  VoiceState.is_playing st = (Ret false, st, []) →
  Music.stop ctx d self =
    (Ret (), Music.mk (delete (Message.server ctx) (Music.voice_states self)),
     CancelTask ::
     match VoiceState.voice st with
     | Some _ => [Transport Disconnect]
     | None => []
     end).
Proof.
  intros Hst Hidle.
  assert (Hnot : VoiceState.is_playing st ≠ (Ret true, st, [])) by congruence.
  unfold_acts. crunch; bool_hyps; rewrite ?delete_insert_eq; try done.
  all: exfalso; apply Hnot, is_playing_true; eauto.
Qed.

Lemma cancelled_task_rests (st : VoiceState.t) :
  VoiceState.audio_player st = VoiceState.Cancelled →
  VoiceState.audio_player_task st = (Ret (), st, []).
Proof. intros H. unfold_acts. by rewrite H. Qed.

Lemma turn_unregistered (server : string) (m : Act VoiceState.t unit)
    (self : Music.t) :
  Music.voice_states self !! server = None →
  turn server m self = (Ret (), self, []).
Proof. intros H. unfold turn, bind, get, ret. by rewrite H. Qed.

(** C6. A first [stop] returns without an error whatever the transport
    does on [disconnect].  While an entry plays it stops the source,
    cancels the player task and disconnects the voice client, in this
    order; while nothing plays it cancels the task and disconnects the
    voice client, if the state has one; in a server without a state it
    cancels the task of the fresh state that the lookup has made.  A
    cancelled task does nothing when it is scheduled.  Afterwards no
    state is registered for the server, so that its queue, its current
    entry and its votes are gone, no turn of its task or of its source
    does anything, and the other servers are as they were.  A second
    [stop] in that server then returns without an error, sends nothing,
    calls no source and no transport, and leaves the registry, hence the
    state of every server, as the first one left it: all it cancels is
    the task of the fresh state that its own lookup has made. *)
Theorem stop_idempotent (self : Music.t) (ctx : Message.t)
    (d1 d2 : option Exn) :
  let server := Message.server ctx in
  let once := Music.mk (delete server (Music.voice_states self)) in
  (∀ st,
     Music.voice_states self !! server = Some st →
     VoiceState.is_playing st = (Ret true, st, []) →
     Music.stop ctx d1 self =
       (Ret (), once, [SourceCall OpStop; CancelTask; Transport Disconnect]))
  ∧ (∀ st v,
       Music.voice_states self !! server = Some st →
       VoiceState.is_playing st = (Ret false, st, []) →
       VoiceState.voice st = Some v →
       Music.stop ctx d1 self = (Ret (), once, [CancelTask; Transport Disconnect]))
  ∧ (∀ st,
       Music.voice_states self !! server = Some st →
       VoiceState.voice st = None →
       Music.stop ctx d1 self = (Ret (), once, [CancelTask]))
  ∧ (Music.voice_states self !! server = None →
     Music.stop ctx d1 self = (Ret (), once, [CancelTask]))
  ∧ (∀ st,
       VoiceState.cancel st =
         (Ret (), VoiceState.with_audio_player VoiceState.Cancelled st,
          [CancelTask])
       ∧ VoiceState.audio_player_task
           (VoiceState.with_audio_player VoiceState.Cancelled st) =
         (Ret (), VoiceState.with_audio_player VoiceState.Cancelled st, []))
  ∧ result (Music.stop ctx d1 self) = Ret ()
  ∧ state_after (Music.stop ctx d1 self) = once
  ∧ Music.voice_states once !! server = None
  ∧ playback server once = ([], None, ∅)
  ∧ (∀ k, k ≠ server →
          Music.voice_states once !! k = Music.voice_states self !! k)
  ∧ step (Schedule server) once = (Ret (), once, [])
  ∧ step (SourceEnd server) once = (Ret (), once, [])
  ∧ step (SourceExit server) once = (Ret (), once, [])
  ∧ Music.stop ctx d2 once = (Ret (), once, [CancelTask]).
Proof.
  intros server once. destruct (stop_unregisters self ctx d1) as [Hr Hs].
  assert (Hnone : Music.voice_states once !! server = None)
    by apply lookup_delete_eq.
  split; [intros st; apply stop_playing|].
  split.
  { intros st v Hst Hidle Hv.
    rewrite (stop_idle self ctx d1 st Hst Hidle). by rewrite Hv. }
  split.
  { intros st Hst Hv.
    assert (Hidle : VoiceState.is_playing st = (Ret false, st, [])).
    { apply is_playing_false. intros (v & c & Hv' & _)%is_playing_true.
      congruence. }
    rewrite (stop_idle self ctx d1 st Hst Hidle). by rewrite Hv. }
  split.
  { intros Hst. rewrite (stop_unregistered self ctx d1 Hst).
    unfold once. cbn. rewrite delete_id by done. by rewrite music_eta. }
  split.
  { intros st. split; [reflexivity|]. by apply cancelled_task_rests. }
  split; [done|]. split; [done|]. split; [done|].
  split.
  { unfold playback, state_of. by rewrite Hnone. }
  split.
  { intros k Hk. cbn. by rewrite lookup_delete_ne. }
  split; [by apply turn_unregistered|].
  split; [by apply turn_unregistered|].
  split; [by apply turn_unregistered|].
  by apply stop_unregistered.
Qed.

(** C6, witness: [bob] stops the server while song A plays, twice; and
    [bob] stops the server that [ann] has joined while nothing plays. *)
Lemma stop_idempotent_witness :
  Music.stop (by_ bob) None song_a_playing
    = (Ret (), Music.init,
       [SourceCall OpStop; CancelTask; Transport Disconnect])
  ∧ Music.stop (by_ bob) None Music.init = (Ret (), Music.init, [CancelTask])
  ∧ Music.stop (by_ bob) None joined
    = (Ret (), Music.init, [CancelTask; Transport Disconnect]).
Proof.
  destruct (stop_idempotent song_a_playing (by_ bob) None None)
    as (Hfirst & _ & _ & _ & _ & _ & _ & _ & _ & _ & _ & _ & _ & Htwice).
  destruct (stop_idempotent joined (by_ bob) None None) as (_ & Hidle & _).
  split; [|split].
  - apply (Hfirst (state_of "guild" song_a_playing)); reflexivity.
  - exact Htwice.
  - apply (Hidle (state_of "guild" joined) (VoiceClient.mk lounge));
      reflexivity.
Defined.

(** A command that does nothing unless something plays, in a server
    without a state: the fresh state gets registered. *)
Ltac idle_fresh := intros; unfold_acts; crunch; rewrite ?insert_insert_eq; done.

Lemma with_current_player_id (st : VoiceState.t) (c : VoiceEntry.t) :
  VoiceState.current st = Some c →
  VoiceState.with_current
    (Some (VoiceEntry.with_player (VoiceEntry.player c) c)) st = st.
Proof. destruct st, c. cbn. by intros ->. Qed.

Lemma true_div_in_range (a : Z) (b : positive) :
  (Z.abs a < float_overflow * Z.pos b)%Z → true_div a b = Some (a # b).
Proof. intros H. unfold true_div. by rewrite (proj2 (Z.ltb_lt _ _) H). Qed.

Lemma true_div_overflow (a : Z) (b : positive) :
  (float_overflow * Z.pos b ≤ Z.abs a)%Z → true_div a b = None.
Proof. intros H. unfold true_div. by rewrite (proj2 (Z.ltb_ge _ _) H). Qed.

(** C9 (amended). While an entry plays and [value / 100] is within the
    doubles, [volume] assigns [value / 100] to the volume of the current
    source and reports it; that number lies between 0 and 2 exactly when
    [value] lies between 0 and 200.  While an entry plays and
    [value / 100] is beyond the doubles, the division raises
    [OverflowError]: nothing is assigned, nothing is said, and the
    command ends with that error.  When nothing plays in a registered
    state the command changes nothing and calls nothing, whatever
    [value] is; in a server without a state it only registers the fresh
    one. *)
Theorem volume_sets_ratio (self : Music.t) (ctx : Message.t) (value : Z) :
  let server := Message.server ctx in
  let v := Qmake value 100 in
  (∀ st c,
     Music.voice_states self !! server = Some st →
     VoiceState.is_playing st = (Ret true, st, []) →
     VoiceState.current st = Some c →
     ((Z.abs value < float_overflow * 100)%Z →
      let p := Player.set_volume v (VoiceEntry.player c) in
      Music.volume ctx value self =
        (Ret (),
         Music.mk (<[server := VoiceState.with_current
                                 (Some (VoiceEntry.with_player p c)) st]>
                     (Music.voice_states self)),
         [SourceCall (OpVolume v); Say (Message.channel ctx) (VOLUME_CHANGE v)])
      ∧ Player.volume p = v
      ∧ ((0 <= Player.volume p)%Q ∧ (Player.volume p <= 2)%Q
         ↔ (0 ≤ value ≤ 200)%Z))
     ∧ ((float_overflow * 100 ≤ Z.abs value)%Z →
        Music.volume ctx value self = (Raise OverflowError, self, [])))
  ∧ (∀ st,
       Music.voice_states self !! server = Some st →
       VoiceState.is_playing st = (Ret false, st, []) →
       Music.volume ctx value self = (Ret (), self, []))
  ∧ (Music.voice_states self !! server = None →
     Music.volume ctx value self =
       (Ret (),
        Music.mk (<[server := VoiceState.init]> (Music.voice_states self)),
        [])).
Proof.
  intros server v. subst server v. split; [|split].
  - intros st c Hst (v' & c' & Hv & Hc' & Hd)%is_playing_true Hc.
    assert (c' = c) as -> by congruence.
    split.
    + intros Hin%true_div_in_range p. subst p.
      split; [|split; [reflexivity|]].
      * unfold_acts. rewrite Hin. crunch; bool_hyps; try congruence.
        rewrite !insert_insert_eq. reflexivity.
      * cbn. unfold Qle. cbn. lia.
    + intros Hout%true_div_overflow.
      unfold_acts. rewrite Hout. crunch; bool_hyps; try congruence.
      by rewrite (insert_same _ _ _ Hst).
  - intros st Hst Hidle.
    assert (Hnot : VoiceState.is_playing st ≠ (Ret true, st, [])) by congruence.
    unfold_acts. crunch; bool_hyps; rewrite ?insert_insert_eq, ?(insert_same _ _ _ Hst);
      try done.
    all: exfalso; apply Hnot, is_playing_true; eauto.
  - idle_fresh.
Qed.

(** C9, witness: [bob] sets 150 while song A plays; with 10^400 the
    command ends with [OverflowError] and changes nothing. *)
Lemma volume_sets_ratio_witness :
  (Player.volume ∘ VoiceEntry.player <$>
     VoiceState.current
       (state_of "guild" (state_after (Music.volume (by_ bob) 150 song_a_playing))))
  = Some (Qmake 150 100)
  ∧ Music.volume (by_ bob) (10 ^ 400) song_a_playing
    = (Raise OverflowError, song_a_playing, []).
Proof.
  split.
  - destruct (volume_sets_ratio song_a_playing (by_ bob) 150) as [H _].
    destruct (H (state_of "guild" song_a_playing)
                (VoiceEntry.mk ann general
                   (Player.start (Player.set_volume (6 # 10) (Player.create "A")))))
      as [[Hv _] _]; [reflexivity | reflexivity | reflexivity | reflexivity |].
    rewrite Hv. reflexivity.
  - destruct (volume_sets_ratio song_a_playing (by_ bob) (10 ^ 400)) as [H _].
    destruct (H (state_of "guild" song_a_playing)
                (VoiceEntry.mk ann general
                   (Player.start (Player.set_volume (6 # 10) (Player.create "A")))))
      as [_ Hraise]; [reflexivity | reflexivity | reflexivity |].
    apply Hraise. vm_compute. discriminate.
Defined.

(** C9, counterexample: while song A plays, [volume 500] makes the
    volume of the current source 5, above 2. *)
Lemma volume_500_out_of_range :
  VoiceState.is_playing (state_of "guild" song_a_playing)
    = (Ret true, state_of "guild" song_a_playing, [])
  ∧ (Player.volume ∘ VoiceEntry.player <$>
       VoiceState.current
         (state_of "guild" (state_after (Music.volume (by_ bob) 500 song_a_playing))))
    = Some (Qmake 500 100)
  ∧ ¬ (Qmake 500 100 <= 2)%Q.
Proof.
  split; [reflexivity|]. split; [reflexivity|].
  unfold Qle. cbn. lia.
Qed.

(** [pause] and [resume] while an entry plays: the call goes to the
    current source. *)
Lemma forward_when_playing (self : Music.t) (ctx : Message.t)
    (st : VoiceState.t) (c : VoiceEntry.t) :
  let at_source (q : Player.t) :=
    Music.mk (<[Message.server ctx :=
                  VoiceState.with_current (Some (VoiceEntry.with_player q c)) st]>
                (Music.voice_states self)) in
  Music.voice_states self !! Message.server ctx = Some st →
  VoiceState.is_playing st = (Ret true, st, []) →
  VoiceState.current st = Some c →
  Music.pause ctx self =
    (Ret (), at_source (Player.pause (VoiceEntry.player c)), [SourceCall OpPause])
  ∧ Music.resume ctx self =
    (Ret (), at_source (Player.resume (VoiceEntry.player c)), [SourceCall OpResume]).
Proof.
  intros at_source Hst (v' & c' & Hv & Hc' & Hd)%is_playing_true Hc.
  subst at_source. assert (c' = c) as -> by congruence.
  split; unfold_acts; crunch; bool_hyps; try congruence;
    rewrite !insert_insert_eq; reflexivity.
Qed.

Lemma nothing_when_idle (self : Music.t) (ctx : Message.t) (st : VoiceState.t) :
  Music.voice_states self !! Message.server ctx = Some st →
  VoiceState.is_playing st = (Ret false, st, []) →
  Music.pause ctx self = (Ret (), self, [])
  ∧ Music.resume ctx self = (Ret (), self, []).
Proof.
  intros Hst Hidle.
  assert (Hnot : VoiceState.is_playing st ≠ (Ret true, st, [])) by congruence.
  split; unfold_acts; crunch; bool_hyps;
    rewrite ?insert_insert_eq, ?(insert_same _ _ _ Hst); try done.
  all: exfalso; apply Hnot, is_playing_true; eauto.
Qed.

Lemma pause_resume_player (p : Player.t) :
  Player.resumed p = true → Player.resume (Player.pause p) = p.
Proof. destruct p. cbn. by intros ->. Qed.

Lemma pause_paused_player (p : Player.t) :
  Player.resumed p = false → Player.pause p = p.
Proof. destruct p. cbn. by intros ->. Qed.

Lemma resume_resumed_player (p : Player.t) :
  Player.resumed p = true → Player.resume p = p.
Proof. destruct p. cbn. by intros ->. Qed.

Lemma pause_resume_unregistered (self : Music.t) (ctx : Message.t) :
  Music.voice_states self !! Message.server ctx = None →
  Music.pause ctx self
    = (Ret (), registered (Message.server ctx) VoiceState.init self, [])
  ∧ Music.resume ctx self
    = (Ret (), registered (Message.server ctx) VoiceState.init self, []).
Proof. split; unfold registered; idle_fresh. Qed.

(** C8 (amended). In a registered state whose current source is not done,
    [pause] and [resume] are forwarded to that source whether it is
    paused or not: a [pause] followed by a [resume] on a source that is
    not paused gives back the very state it started from (same current
    entry, queue and votes); a [pause] on a paused source and a [resume]
    on one that is not paused are forwarded as well and change nothing.
    When nothing plays in a registered state, both commands forward no
    call and change nothing.  In a server without a state both commands
    forward no call and register the fresh idle state, which a further
    [pause] or [resume] leaves as it is. *)
Theorem pause_resume_forwarding (self : Music.t) (ctx : Message.t) :
  let server := Message.server ctx in
  (∀ st c,
     Music.voice_states self !! server = Some st →
     VoiceState.is_playing st = (Ret true, st, []) →
     VoiceState.current st = Some c →
     (Player.resumed (VoiceEntry.player c) = true →
        (Music.pause ctx;; Music.resume ctx) self =
          (Ret (), self, [SourceCall OpPause; SourceCall OpResume])
        ∧ Music.resume ctx self = (Ret (), self, [SourceCall OpResume]))
     ∧ (Player.resumed (VoiceEntry.player c) = false →
        Music.pause ctx self = (Ret (), self, [SourceCall OpPause])))
  ∧ (∀ st,
       Music.voice_states self !! server = Some st →
       VoiceState.is_playing st = (Ret false, st, []) →
       Music.pause ctx self = (Ret (), self, [])
       ∧ Music.resume ctx self = (Ret (), self, []))
  ∧ (Music.voice_states self !! server = None →
     let fresh_state := registered server VoiceState.init self in
     Music.pause ctx self = (Ret (), fresh_state, [])
     ∧ Music.resume ctx self = (Ret (), fresh_state, [])
     ∧ (Music.pause ctx;; Music.resume ctx) self = (Ret (), fresh_state, [])
     ∧ Music.pause ctx fresh_state = (Ret (), fresh_state, [])
     ∧ Music.resume ctx fresh_state = (Ret (), fresh_state, [])).
Proof.
  intros server. subst server.
  split; [|split; [intros st; by apply nothing_when_idle|]].
  - intros st c Hst Hplay Hc.
    destruct (forward_when_playing self ctx st c Hst Hplay Hc) as [Hpause Hresume].
    cbn zeta in Hpause, Hresume.
    split.
    + intros Hres. split.
      * set (stp := VoiceState.with_current
                      (Some (VoiceEntry.with_player
                               (Player.pause (VoiceEntry.player c)) c)) st).
        set (mp := Music.mk (<[Message.server ctx := stp]> (Music.voice_states self))).
        assert (Hplayp : VoiceState.is_playing stp = (Ret true, stp, [])).
        { apply is_playing_true in Hplay as (v & c' & Hv & Hc' & Hd).
          assert (c' = c) as -> by congruence.
          apply is_playing_true. by exists v, (VoiceEntry.with_player
                                              (Player.pause (VoiceEntry.player c)) c). }
        destruct (forward_when_playing mp ctx stp
                    (VoiceEntry.with_player (Player.pause (VoiceEntry.player c)) c))
          as [_ Hr2]; [apply lookup_insert_eq | done | done |].
        unfold bind. rewrite Hpause. fold stp mp. rewrite Hr2. cbn.
        rewrite insert_insert_eq, pause_resume_player by done.
        replace (VoiceState.with_current
                   (Some (VoiceEntry.with_player (VoiceEntry.player c)
                            (VoiceEntry.with_player
                               (Player.pause (VoiceEntry.player c)) c))) stp)
          with st by (destruct st, c; cbn in *; by rewrite Hc).
        by rewrite (insert_same _ _ _ Hst).
      * rewrite Hresume, resume_resumed_player by done.
        by rewrite with_current_player_id, (insert_same _ _ _ Hst).
    + intros Hres. rewrite Hpause, pause_paused_player by done.
      by rewrite with_current_player_id, (insert_same _ _ _ Hst).
  - intros Hnone fresh_state.
    destruct (pause_resume_unregistered self ctx Hnone) as [Hp Hr].
    assert (Hreg : Music.voice_states fresh_state !! Message.server ctx
                   = Some VoiceState.init) by apply lookup_insert_eq.
    destruct (nothing_when_idle fresh_state ctx VoiceState.init Hreg eq_refl)
      as [Hp' Hr'].
    split; [done|]. split; [done|]. split; [|done].
    unfold bind. fold fresh_state in Hp. rewrite Hp, Hr'. reflexivity.
Qed.

(** C8, witness: [bob] pauses and resumes song A; [bob] pauses in a
    server where nothing was ever asked. *)
Lemma pause_resume_forwarding_witness :
  (Music.pause (by_ bob);; Music.resume (by_ bob)) song_a_playing =
    (Ret (), song_a_playing, [SourceCall OpPause; SourceCall OpResume])
  ∧ Music.pause (by_ bob) Music.init
    = (Ret (), registered "guild" VoiceState.init Music.init, []).
Proof.
  split.
  - destruct (pause_resume_forwarding song_a_playing (by_ bob)) as [H _].
    destruct (H (state_of "guild" song_a_playing)
                (VoiceEntry.mk ann general
                   (Player.start (Player.set_volume (6 # 10) (Player.create "A")))))
      as [H1 _]; [reflexivity | reflexivity | reflexivity |].
    apply H1. reflexivity.
  - destruct (pause_resume_forwarding Music.init (by_ bob)) as (_ & _ & H).
    destruct H as [H _]; [reflexivity|]. exact H.
Defined.

(** C8, counterexample: song A is paused and not done; a further [pause]
    is forwarded to the source. *)
Lemma pause_when_paused_is_forwarded :
  let paused := state_after (Music.pause (by_ bob) song_a_playing) in
  (Player.resumed ∘ VoiceEntry.player <$>
     VoiceState.current (state_of "guild" paused)) = Some false
  ∧ effects (Music.pause (by_ bob) paused) = [SourceCall OpPause]
  ∧ effects (Music.pause (by_ bob) paused) ≠ [].
Proof. split; [reflexivity|]. split; [reflexivity | discriminate]. Qed.

Lemma playing_reply (self : Music.t) (ctx : Message.t) :
  effects (Music.playing ctx self) =
    [Say (Message.channel ctx)
       match VoiceState.current (state_of (Message.server ctx) self) with
       | None => NOT_PLAYING
       | Some c => NOW_PLAYING c
       end].
Proof.
  unfold effects, state_of. unfold_acts. unfold VoiceState.init. by crunch.
Qed.

(** C10. [playing] replies [NOT_PLAYING] exactly when [current] is
    [None]; otherwise it names the current entry, also when its source
    is done: once the media of the current source has ended by itself,
    [is_playing] returns false and [playing] still names that entry. *)
Theorem playing_reports_current (self : Music.t) (ctx : Message.t) :
  let server := Message.server ctx in
  let st := state_of server self in
  (effects (Music.playing ctx self) = [Say (Message.channel ctx) NOT_PLAYING]
     ↔ VoiceState.current st = None)
  ∧ (∀ c, VoiceState.current st = Some c →
          effects (Music.playing ctx self)
            = [Say (Message.channel ctx) (NOW_PLAYING c)])
  ∧ (∀ c p,
       Music.voice_states self !! server = Some st →
       VoiceState.current st = Some c →
       Player.finish (VoiceEntry.player c) = Some p →
       let later := state_after (step (SourceEnd server) self) in
       VoiceState.current (state_of server later)
         = Some (VoiceEntry.with_player p c)
       ∧ Player.is_done p = true
       ∧ VoiceState.is_playing (state_of server later)
         = (Ret false, state_of server later, [])
       ∧ effects (Music.playing ctx later)
         = [Say (Message.channel ctx) (NOW_PLAYING (VoiceEntry.with_player p c))]).
Proof.
  intros server st. subst server st. split; [|split].
  - rewrite playing_reply.
    destruct (VoiceState.current _); split; intros; done || congruence.
  - intros c Hc. by rewrite playing_reply, Hc.
  - intros c p Hst Hc Hfin later.
    assert (Hlater : later =
              Music.mk (<[Message.server ctx :=
                            VoiceState.with_current
                              (Some (VoiceEntry.with_player p c))
                              (state_of (Message.server ctx) self)]>
                          (Music.voice_states self))).
    { subst later. unfold state_after, state_of. unfold_acts.
      crunch; rewrite ?insert_insert_eq; congruence. }
    assert (Hcur : state_of (Message.server ctx) later =
                   VoiceState.with_current (Some (VoiceEntry.with_player p c))
                     (state_of (Message.server ctx) self)).
    { rewrite Hlater. unfold state_of at 1. cbn. by rewrite lookup_insert_eq. }
    assert (Hdone : Player.is_done p = true).
    { unfold Player.finish in Hfin. case_match; [|done].
      by injection Hfin as <-. }
    split; [by rewrite Hcur|]. split; [done|]. split.
    + rewrite Hcur. unfold VoiceState.is_playing, bind, get. cbn.
      destruct (VoiceState.voice _); [|done]. cbn. by rewrite Hdone.
    + by rewrite playing_reply, Hcur.
Qed.

(** C10, witness: song A has ended by itself and the task has not yet
    run; [playing] names song A. *)
Lemma playing_reports_current_witness :
  let later := state_after (step (SourceEnd "guild") song_a_playing) in
  effects (Music.playing (by_ bob) later)
    = [Say general
         (NOW_PLAYING
            (VoiceEntry.with_player
               (Player.stop (VoiceEntry.player song_a_started)) song_a_started))]
  ∧ VoiceState.is_playing (state_of "guild" later)
    = (Ret false, state_of "guild" later, []).
Proof.
  intros later.
  destruct (playing_reports_current song_a_playing (by_ bob)) as (_ & _ & H).
  destruct (H song_a_started (Player.stop (VoiceEntry.player song_a_started)))
    as (_ & _ & Hidle & Hsay); [reflexivity | reflexivity | reflexivity |].
  split; [exact Hsay | exact Hidle].
Defined.

Lemma source_end_finishes (st : VoiceState.t) (c : VoiceEntry.t) (p : Player.t) :
  VoiceState.current st = Some c →
  Player.finish (VoiceEntry.player c) = Some p →
  VoiceState.source_end st =
    (Ret (), VoiceState.with_current (Some (VoiceEntry.with_player p c)) st, [])
  ∧ p = Player.stop (VoiceEntry.player c).
Proof.
  intros Hc Hfin. split.
  - unfold_acts. by crunch.
  - unfold Player.finish in Hfin. case_match; congruence.
Qed.

(** C3 (amended). After a forced skip of a playing entry, [skip_votes]
    is empty and the current source reports done; after the media of
    the current source has ended by itself, the current source reports
    done.  In both cases [current] is not reset: it still holds the
    ended entry.  [stop] unregisters the state of its server. *)
Theorem idle_after_end (st : VoiceState.t) (c : VoiceEntry.t) :
  VoiceState.is_playing st = (Ret true, st, []) →
  VoiceState.current st = Some c →
  let ended := VoiceEntry.with_player (Player.stop (VoiceEntry.player c)) c in
  (let st' := state_after (VoiceState.skip st) in
   VoiceState.skip_votes st' = ∅
   ∧ VoiceState.is_playing st' = (Ret false, st', [])
   ∧ VoiceState.current st' = Some ended)
  ∧ (∀ p, Player.finish (VoiceEntry.player c) = Some p →
       let st' := state_after (VoiceState.source_end st) in
       VoiceState.is_playing st' = (Ret false, st', [])
       ∧ VoiceState.current st' = Some ended)
  ∧ (∀ self ctx d,
       Music.voice_states (state_after (Music.stop ctx d self))
         !! Message.server ctx = None).
Proof.
  intros Hplay Hc ended. split; [|split].
  - rewrite (voice_state_skip st c Hplay Hc). cbn.
    split; [done|]. split; [|done].
    apply (ended_not_playing (VoiceState.with_skip_votes ∅ st)).
  - intros p Hfin.
    destruct (source_end_finishes st c p Hc Hfin) as [-> ->]. cbn.
    split; [|done]. apply ended_not_playing.
  - intros self ctx d. destruct (stop_unregisters self ctx d) as [_ ->].
    cbn. apply lookup_delete_eq.
Qed.

(** C3, witness: the state of the server while song A plays. *)
Lemma idle_after_end_witness :
  let st' := state_after (VoiceState.skip (state_of "guild" song_a_playing)) in
  VoiceState.skip_votes st' = ∅
  ∧ VoiceState.is_playing st' = (Ret false, st', [])
  ∧ VoiceState.current st'
    = Some (VoiceEntry.with_player
              (Player.stop (VoiceEntry.player song_a_started)) song_a_started).
Proof.
  intros st'.
  pose proof (idle_after_end (state_of "guild" song_a_playing) song_a_started) as H.
  destruct H as [H _]; [reflexivity | reflexivity |].
  exact H.
Defined.

(** C3, counterexample: [bob] votes while song A plays, then song A ends
    by itself.  The channel has gone from playing to idle, yet [current]
    is not [None] (and the vote of [bob] is still there). *)
Lemma natural_end_keeps_current :
  let before := state_after (Music.skip (by_ bob) song_a_playing) in
  let after :=
    state_after (run [SourceEnd "guild"; SourceExit "guild"] before) in
  VoiceState.is_playing (state_of "guild" before)
    = (Ret true, state_of "guild" before, [])
  ∧ VoiceState.is_playing (state_of "guild" after)
    = (Ret false, state_of "guild" after, [])
  ∧ ¬ (VoiceState.skip_votes (state_of "guild" after) = ∅
       ∧ VoiceState.current (state_of "guild" after) = None).
Proof.
  split; [reflexivity|]. split; [reflexivity|].
  intros [_ H]. vm_compute in H. discriminate H.
Qed.

Lemma kept_refl (server : string) (self : Music.t) : kept server self self.
Proof. by intros k. Qed.

Lemma kept_insert (server : string) (self : Music.t) (st' : VoiceState.t) :
  (VoiceState.songs st', VoiceState.current st', VoiceState.skip_votes st')
    = playback server self →
  kept server self (Music.mk (<[server := st']> (Music.voice_states self))).
Proof.
  intros H k. split.
  - destruct (decide (k = server)) as [->|Hne].
    + rewrite <- H. unfold playback, state_of. cbn. by rewrite lookup_insert_eq.
    + unfold playback, state_of. cbn. by rewrite lookup_insert_ne.
  - intros Hne. cbn. by rewrite lookup_insert_ne.
Qed.

Ltac kept_tac :=
  rewrite ?insert_insert_eq;
  first [ apply kept_refl
        | apply kept_insert; unfold playback, state_of;
          repeat match goal with
            | H : _ !! _ = _ |- _ => rewrite H
            end; reflexivity ].

(** C5 (amended). A [join] that fails leaves the registry exactly as it
    was.  A [summon] of a member who is in no voice channel changes
    nothing; a [summon] whose connection or move fails, and a [play]
    that fails (the member is in no voice channel, the connection
    fails, or the song cannot be resolved) leave the queue, the current
    entry and the votes of every server as they were, a server without
    a registered state counting as the fresh idle state, and do not
    touch the registry entry of any other server. *)
Theorem failure_keeps_playback (self : Music.t) (ctx : Message.t) :
  let server := Message.server ctx in
  let author := Message.author ctx in
  let st := state_of server self in
  (∀ channel e, state_after (Music.join ctx channel (Some e) self) = self)
  ∧ (∀ connect,
       Member.voice_channel author = None →
       state_after (Music.join ctx None connect self) = self)
  ∧ (∀ connect,
       Member.voice_channel author = None →
       Music.summon ctx connect self =
         (Ret false, self, [Say (Message.channel ctx) USER_NOT_IN_VOICE_CHANNEL]))
  ∧ (∀ e,
       Member.voice_channel author ≠ None →
       result (Music.summon ctx (Some e) self) = Raise e
       ∧ kept server self (state_after (Music.summon ctx (Some e) self)))
  ∧ (∀ song connect resolve,
       (VoiceState.voice st = None
        ∧ (Member.voice_channel author = None ∨ connect ≠ None))
       ∨ resolve ≠ None →
       kept server self (state_after (Music.play ctx song connect resolve self))
       ∧ ∀ entry, Say (Message.channel ctx) (ENQUEUE_SUCCESS entry)
                  ∉ effects (Music.play ctx song connect resolve self)).
Proof.
  intros server author st. subst server author st.
  split; [|split; [|split; [|split]]].
  - intros channel e. unfold state_after. unfold_acts.
    crunch; done.
  - intros connect Hnone. unfold state_after. unfold_acts.
    crunch; done.
  - intros connect Hnone. unfold_acts. by crunch.
  - intros e Hsome. unfold result, state_after. unfold_acts.
    crunch; try done; (split; [done|]); kept_tac.
  - intros song connect resolve Hfail.
    unfold state_after, effects, state_of in *. unfold_acts.
    crunch.
    all: destruct Hfail as [[Hv [Hn|Hc]]|Hr]; cbn in *; try congruence.
    all: (split; [kept_tac|]).
    all: intros entry Hin;
      repeat (apply elem_of_cons in Hin as [Hin|Hin]; [discriminate Hin|]);
      by apply elem_of_nil in Hin.
Qed.

(** C5, witness: [cyd] asks for a song that cannot be resolved while
    song A plays. *)
Lemma failure_keeps_playback_witness :
  kept "guild" song_a_playing
    (state_after (Music.play (by_ cyd) "B" None (Some OtherException)
                    song_a_playing)).
Proof.
  destruct (failure_keeps_playback song_a_playing (by_ cyd)) as (_ & _ & _ & _ & H).
  destruct (H "B" None (Some OtherException)) as [Hk _]; [by right|].
  exact Hk.
Defined.

(** C5, counterexample: the first [play] of [ann] in a server without a
    state, with a connection that fails.  The command raises, and a
    state has been registered for the server. *)
Lemma failed_first_play_registers_state :
  let r := Music.play (by_ ann) "A" (Some OtherException) None Music.init in
  result r = Raise OtherException
  ∧ Music.voice_states Music.init !! "guild" = None
  ∧ Music.voice_states (state_after r) !! "guild" = Some VoiceState.init
  ∧ state_after r ≠ Music.init.
Proof.
  split; [reflexivity|]. split; [reflexivity|]. split; [reflexivity|].
  intros H. apply (f_equal (λ m, Music.voice_states m !! "guild")) in H.
  vm_compute in H. discriminate H.
Qed.

(** ** What holds of every state that the cog can reach *)

Lemma sound_init : sound Music.init.
Proof. intros k st. cbn. by rewrite lookup_empty. Qed.

Lemma wf_init (server : string) : wf server VoiceState.init.
Proof. split; [done | constructor]. Qed.

Lemma sound_insert (self : Music.t) (k : string) (st : VoiceState.t) :
  sound self → wf k st →
  sound (Music.mk (<[k := st]> (Music.voice_states self))).
Proof.
  intros Hs Hw k' st'. cbn. rewrite lookup_insert.
  case_decide; [|apply Hs]. intros [= <-]. by subst.
Qed.

Lemma sound_delete (self : Music.t) (k : string) :
  sound self → sound (Music.mk (delete k (Music.voice_states self))).
Proof.
  intros Hs k' st'. cbn. rewrite lookup_delete.
  case_decide; [done | apply Hs].
Qed.

Ltac wf_tac :=
  repeat match goal with
    | Hs : sound ?m, H : Music.voice_states ?m !! _ = Some _ |- _ =>
        apply Hs in H; destruct H as [? ?]
    end;
  split; cbn;
  [ intros Hnone;
    first [ discriminate Hnone
          | match goal with
            | H : VoiceState.voice _ = None → _ |- _ =>
                destruct (H Hnone) as [? ?]; split; congruence
            end
          | split; congruence ]
  | repeat match goal with
      | H : VoiceState.songs ?t = _, F : Forall _ (VoiceState.songs ?t) |- _ =>
          rewrite H in F; rewrite ?H
      | F : Forall _ (_ :: _) |- _ => apply Forall_cons in F as [? ?]
      end;
    rewrite ?Forall_app, ?Forall_cons, ?Forall_nil; repeat split; auto ].

Ltac sound_tac :=
  rewrite ?insert_insert_eq, ?delete_insert_eq;
  first [ assumption
        | apply sound_delete; assumption
        | apply sound_insert; [assumption | first [apply wf_init | wf_tac]] ].

Lemma step_sound (ev : Event) (self : Music.t) :
  sound self → sound (state_after (step ev self)).
Proof.
  intros Hs. unfold state_after.
  destruct ev as [ctx [] | k | k | k]; unfold_acts.
  all: crunch.
  all: sound_tac.
Qed.

Lemma step_returns (ev : Event) (self : Music.t) :
  result (step ev self) = Ret ().
Proof.
  unfold result.
  destruct ev as [ctx [] | k | k | k]; unfold_acts; crunch; reflexivity.
Qed.

Lemma run_cons (ev : Event) (evs : list Event) (self : Music.t) :
  run (ev :: evs) self =
    (result (run evs (state_after (step ev self))),
     state_after (run evs (state_after (step ev self))),
     effects (step ev self) ++ effects (run evs (state_after (step ev self)))).
Proof.
  cbn [run]. unfold bind. pose proof (step_returns ev self) as Hr.
  destruct (step ev self) as [[r s1] o1]. cbn in Hr. subst r.
  unfold state_after, effects, result. cbn [fst snd].
  destruct (run evs s1) as [[r s2] o2]. reflexivity.
Qed.

Lemma run_sound (evs : list Event) (self : Music.t) :
  sound self → sound (state_after (run evs self)).
Proof.
  revert self. induction evs as [|ev evs IH]; intros self Hs; [done|].
  rewrite run_cons. unfold state_after at 1. cbn [fst snd].
  apply IH. by apply step_sound.
Qed.

(** C7. [is_playing] changes nothing and performs no call, in every
    state.  In every state that a run of the cog registers, it returns
    true exactly when [current] holds an entry whose source does not
    report done. *)
Theorem is_playing_query (evs : list Event) (server : string)
    (st : VoiceState.t) :
  Music.voice_states (state_after (run evs Music.init)) !! server = Some st →
  (∀ st' : VoiceState.t, ∃ b, VoiceState.is_playing st' = (Ret b, st', []))
  ∧ (VoiceState.is_playing st = (Ret true, st, [])
     ↔ ∃ c, VoiceState.current st = Some c
            ∧ Player.is_done (VoiceEntry.player c) = false)
  ∧ (VoiceState.is_playing st = (Ret false, st, [])
     ↔ ¬ ∃ c, VoiceState.current st = Some c
              ∧ Player.is_done (VoiceEntry.player c) = false).
Proof.
  intros Hst.
  assert (Hwf : wf server st)
    by (by apply (run_sound evs Music.init sound_init server)).
  assert (Hiff : VoiceState.is_playing st = (Ret true, st, [])
                 ↔ ∃ c, VoiceState.current st = Some c
                        ∧ Player.is_done (VoiceEntry.player c) = false).
  { rewrite is_playing_true. split.
    - intros (v & c & _ & Hc & Hd). eauto.
    - intros (c & Hc & Hd). destruct (VoiceState.voice st) as [v|] eqn:Hv.
      + eauto.
      + destruct Hwf as [Hnone _]. destruct (Hnone Hv). congruence. }
  split; [apply is_playing_pure|]. split; [exact Hiff|].
  rewrite is_playing_false. by rewrite Hiff.
Qed.

(** C7, witness: the state of the server while song A plays. *)
Lemma is_playing_query_witness :
  VoiceState.is_playing (state_of "guild" song_a_playing)
    = (Ret true, state_of "guild" song_a_playing, [])
  ↔ ∃ c, VoiceState.current (state_of "guild" song_a_playing) = Some c
         ∧ Player.is_done (VoiceEntry.player c) = false.
Proof.
  pose proof (is_playing_query
                [Invoke (by_ ann) (Play "A" None None); Schedule "guild";
                 Schedule "guild"]
                "guild" (state_of "guild" song_a_playing)) as H.
  destruct H as (_ & H & _); [reflexivity|]. exact H.
Defined.

(** ** First in, first out *)

Lemma announced_app (k : string) (o1 o2 : list Effect) :
  announced k (o1 ++ o2) = announced k o1 ++ announced k o2.
Proof.
  induction o1 as [|[dest [] | dest [] | | |] o1 IH]; cbn; try done.
  case_bool_decide; cbn; by rewrite IH.
Qed.

Lemma enqueued_app (k : string) (o1 o2 : list Effect) :
  enqueued k (o1 ++ o2) = enqueued k o1 ++ enqueued k o2.
Proof.
  induction o1 as [|[dest [] | dest [] | | |] o1 IH]; cbn; try done.
  case_bool_decide; cbn; by rewrite IH.
Qed.

Ltac fifo_tac k :=
  unfold fifo, state_of, Message.server in *; cbn;
  rewrite ?insert_insert_eq, ?delete_insert_eq;
  match goal with
  | |- context [<[?key := _]> _ !! k] =>
      destruct (decide (key = k)) as [?|?];
      [subst; rewrite ?lookup_insert_eq | rewrite lookup_insert_ne by done]
  | |- context [delete ?key _ !! k] =>
      destruct (decide (key = k)) as [?|?];
      [subst; rewrite ?lookup_delete_eq | rewrite lookup_delete_ne by done]
  | _ => idtac
  end;
  repeat match goal with
    | H : _ !! _ = _ |- _ => rewrite H
    end;
  cbn;
  repeat first [ rewrite bool_decide_eq_true_2 by congruence
               | rewrite bool_decide_eq_false_2 by congruence ];
  cbn; rewrite ?app_nil_r.

Lemma step_fifo (ev : Event) (self : Music.t) (k : string) :
  sound self → stops k ev = false →
  fifo k self (effects (step ev self)) (state_after (step ev self)).
Proof.
  intros Hs Hstop. unfold state_after, effects.
  destruct ev as [ctx [] | k' | k' | k']; unfold_acts.
  all: crunch.
  all: try match goal with
         | Hsound : sound ?m,
           H : Music.voice_states ?m !! _ = Some ?t,
           Hq : VoiceState.songs ?t = _ :: _ |- _ =>
             let Hf := fresh "Hf" in
             destruct (Hsound _ _ H) as [_ Hf]; rewrite Hq in Hf;
             apply Forall_cons in Hf as [Hf _]
         end.
  all: match goal with H : stops _ _ = false |- _ => cbn in H end; bool_hyps.
  all: fifo_tac k.
  all: done.
Qed.

Lemma run_fifo (evs : list Event) (self : Music.t) (k : string) :
  sound self → forallb (λ ev, negb (stops k ev)) evs = true →
  fifo k self (effects (run evs self)) (state_after (run evs self)).
Proof.
  revert self. induction evs as [|ev evs IH]; intros self Hs Hstop.
  - unfold fifo. cbn. by rewrite app_nil_r.
  - cbn in Hstop. apply andb_true_iff in Hstop as [Hev Hevs].
    apply negb_true_iff in Hev.
    pose proof (step_fifo ev self k Hs Hev) as H1.
    pose proof (IH _ (step_sound ev self Hs) Hevs) as H2.
    rewrite run_cons.
    set (r1 := step ev self) in *. set (r2 := run evs (state_after r1)) in *.
    unfold fifo in *.
    change (announced k (effects r1 ++ effects r2)
              ++ VoiceState.songs (state_of k (state_after r2))
            = VoiceState.songs (state_of k self)
              ++ enqueued k (effects r1 ++ effects r2)).
    rewrite announced_app, enqueued_app.
    rewrite <- app_assoc, H2, app_assoc, H1. by rewrite app_assoc.
Qed.

Lemma skip_keeps_queue (ctx : Message.t) (self : Music.t) (k : string) :
  VoiceState.songs (state_of k (state_after (Music.skip ctx self)))
    = VoiceState.songs (state_of k self).
Proof.
  unfold state_after. unfold_acts. crunch.
  all: fifo_tac k. all: done.
Qed.

(** ** Runs, piece by piece *)

Lemma run_app (evs1 evs2 : list Event) (self : Music.t) :
  run (evs1 ++ evs2) self =
    (result (run evs2 (state_after (run evs1 self))),
     state_after (run evs2 (state_after (run evs1 self))),
     effects (run evs1 self) ++ effects (run evs2 (state_after (run evs1 self)))).
Proof.
  revert self. induction evs1 as [|ev evs1 IH]; intros self.
  - cbn. by destruct (run evs2 self) as [[r s] o].
  - rewrite <- app_comm_cons, !run_cons, IH.
    unfold result, state_after, effects. cbn [fst snd]. by rewrite app_assoc.
Qed.

Lemma run_then (evs1 evs2 : list Event) (self s1 s2 : Music.t)
    (o1 o2 : list Effect) :
  run evs1 self = (Ret (), s1, o1) →
  run evs2 s1 = (Ret (), s2, o2) →
  run (evs1 ++ evs2) self = (Ret (), s2, o1 ++ o2).
Proof. intros H1 H2. rewrite run_app, H1. cbn. by rewrite H2. Qed.

Lemma run_step_one (ev : Event) (evs : list Event) (self s1 : Music.t)
    (o1 : list Effect) :
  step ev self = (Ret (), s1, o1) →
  run (ev :: evs) self
    = (result (run evs s1), state_after (run evs s1), o1 ++ effects (run evs s1)).
Proof. intros H. rewrite run_cons, H. reflexivity. Qed.

Lemma registered_twice (k : string) (st1 st2 : VoiceState.t) (self : Music.t) :
  registered k st2 (registered k st1 self) = registered k st2 self.
Proof. unfold registered. cbn. by rewrite insert_insert_eq. Qed.

Lemma registered_lookup (k : string) (st : VoiceState.t) (self : Music.t) :
  Music.voice_states (registered k st self) !! k = Some st.
Proof. apply lookup_insert_eq. Qed.

Lemma registered_same (k : string) (st : VoiceState.t) (self : Music.t) :
  Music.voice_states self !! k = Some st → registered k st self = self.
Proof. apply insert_same. Qed.

(** One song: from a task that is ready, with [e] at the head of the
    queue. *)
Lemma one_song_plays (k : string) (self : Music.t) (st : VoiceState.t)
    (e : VoiceEntry.t) (rest : list VoiceEntry.t) :
  Music.voice_states self !! k = Some st →
  ready st →
  VoiceState.songs st = e :: rest →
  fresh (VoiceEntry.player e) →
  run (one_song k) self
    = (Ret (), registered k (after_song e rest st) self,
       [SendMessage (VoiceEntry.channel e) (NOW_PLAYING e); SourceCall OpStart]).
Proof.
  intros Hst Hready Hq Hfresh.
  set (st1 := VoiceState.mk (Some e) (VoiceState.voice st) rest
                (VoiceState.skip_votes st) false VoiceState.AwaitSend).
  set (e2 := VoiceEntry.with_player (Player.start (VoiceEntry.player e)) e).
  set (st2 := VoiceState.mk (Some e2) (VoiceState.voice st) rest
                (VoiceState.skip_votes st) false VoiceState.AwaitNext).
  set (e3 := VoiceEntry.with_player (Player.stop (VoiceEntry.player e2)) e2).
  set (st3 := VoiceState.mk (Some e3) (VoiceState.voice st) rest
                (VoiceState.skip_votes st) false VoiceState.AwaitNext).
  assert (H1 : step (Schedule k) self
               = (Ret (), registered k st1 self,
                  [SendMessage (VoiceEntry.channel e) (NOW_PLAYING e)])).
  { subst st1. unfold_acts. unfold registered. rewrite Hst. cbn. rewrite Hst.
    destruct Hready as [Hpc|[[Hpc Hev]|[Hpc Hev]]]; cbn; rewrite Hpc; cbn;
      rewrite ?Hev, ?Hq; cbn; rewrite ?Hq; cbn;
      unfold VoiceState.with_audio_player, VoiceState.with_current,
        VoiceState.with_songs, VoiceState.with_play_next_song; cbn;
      rewrite ?Hev; reflexivity. }
  assert (H2 : step (Schedule k) (registered k st1 self)
               = (Ret (), registered k st2 self, [SourceCall OpStart])).
  { subst st1 st2 e2. unfold_acts. unfold registered. cbn.
    crunch; rewrite ?insert_insert_eq; reflexivity. }
  assert (H3 : step (SourceEnd k) (registered k st2 self)
               = (Ret (), registered k st3 self, [])).
  { subst st2 st3 e3 e2. unfold_acts. unfold registered, Player.finish.
    rewrite Hfresh.
    crunch; rewrite ?insert_insert_eq; reflexivity. }
  assert (H4 : step (SourceExit k) (registered k st3 self)
               = (Ret (), registered k (after_song e rest st) self, [])).
  { subst st3 e3 e2. unfold_acts. unfold registered, Player.exit, after_song, finished.
    rewrite Hfresh.
    crunch; rewrite ?insert_insert_eq; reflexivity. }
  unfold one_song.
  rewrite (run_step_one _ _ _ _ _ H1), (run_step_one _ _ _ _ _ H2),
    (run_step_one _ _ _ _ _ H3), (run_step_one _ _ _ _ _ H4).
  reflexivity.
Qed.

Lemma ready_after_song (e : VoiceEntry.t) (rest : list VoiceEntry.t)
    (st : VoiceState.t) :
  ready (after_song e rest st).
Proof. right. right. by split. Qed.

(** The queue, played through. *)
Lemma play_through_plays (k : string) (q : list VoiceEntry.t) (self : Music.t)
    (st : VoiceState.t) :
  Music.voice_states self !! k = Some st →
  ready st →
  VoiceState.songs st = q →
  Forall (λ e, fresh (VoiceEntry.player e)) q →
  run (play_through (length q) k) self
    = (Ret (), registered k (after_songs q st) self, played q).
Proof.
  revert self st. induction q as [|e rest IH]; intros self st Hst Hready Hq Hfresh.
  - cbn. by rewrite (registered_same _ _ _ Hst).
  - apply Forall_cons in Hfresh as [He Hrest].
    cbn [length play_through after_songs played].
    pose proof (one_song_plays k self st e rest Hst Hready Hq He) as H1.
    pose proof (IH (registered k (after_song e rest st) self)
                  (after_song e rest st) (registered_lookup _ _ _)
                  (ready_after_song _ _ _) eq_refl Hrest) as H2.
    rewrite registered_twice in H2.
    apply (run_then _ _ _ _ _ _ _ H1 H2).
Qed.

Lemma after_songs_queue (q : list VoiceEntry.t) (st : VoiceState.t) :
  VoiceState.songs st = q → VoiceState.songs (after_songs q st) = [].
Proof.
  revert st. induction q as [|e rest IH]; intros st Hq; [done|].
  cbn. by apply IH.
Qed.

Lemma after_songs_current (q : list VoiceEntry.t) (st : VoiceState.t) :
  VoiceState.current (after_songs q st)
    = match last q with
      | Some e => Some (finished e)
      | None => VoiceState.current st
      end.
Proof.
  revert st. induction q as [|e rest IH]; intros st; [done|].
  cbn [after_songs]. rewrite IH. destruct rest as [|e' rest]; [done|].
  rewrite last_cons_cons.
  destruct (last (e' :: rest)) eqn:Hlast; [done|].
  by apply last_None in Hlast.
Qed.

Lemma after_songs_rest (q : list VoiceEntry.t) (st : VoiceState.t) :
  VoiceState.voice (after_songs q st) = VoiceState.voice st
  ∧ VoiceState.skip_votes (after_songs q st) = VoiceState.skip_votes st.
Proof.
  revert st. induction q as [|e rest IH]; intros st; [done|].
  cbn [after_songs]. destruct (IH (after_song e rest st)) as [-> ->]. done.
Qed.

Lemma after_songs_ready (q : list VoiceEntry.t) (st : VoiceState.t) :
  ready st → ready (after_songs q st).
Proof.
  revert st. induction q as [|e rest IH]; intros st Hr; [done|].
  cbn [after_songs]. apply IH, ready_after_song.
Qed.

(** [play] of a song that resolves, in a server whose state has a voice
    client. *)
Lemma play_with_voice (ctx : Message.t) (song : string) (self : Music.t)
    (st : VoiceState.t) (connect : option Exn) :
  Music.voice_states self !! Message.server ctx = Some st →
  is_Some (VoiceState.voice st) →
  Music.play ctx song connect None self
    = (Ret (),
       registered (Message.server ctx)
         (VoiceState.with_songs (VoiceState.songs st ++ [entry_of (ctx, song)]) st)
         self,
       [Say (Message.channel ctx) (ENQUEUE_SUCCESS (entry_of (ctx, song)))]).
Proof.
  intros Hst [v Hv]. unfold_acts. unfold registered, entry_of.
  crunch; try congruence. by rewrite ?insert_insert_eq.
Qed.

(** The same in a server whose state, registered or fresh, has no voice
    client: the channel of the author is joined first. *)
Lemma play_without_voice (ctx : Message.t) (song : string) (self : Music.t)
    (ch : Channel.t) :
  let st := state_of (Message.server ctx) self in
  VoiceState.voice st = None →
  Member.voice_channel (Message.author ctx) = Some ch →
  Music.play ctx song None None self
    = (Ret (),
       registered (Message.server ctx)
         (VoiceState.with_songs (VoiceState.songs st ++ [entry_of (ctx, song)])
            (VoiceState.with_voice (Some (VoiceClient.mk ch)) st))
         self,
       [Transport (Connect ch);
        Say (Message.channel ctx) (ENQUEUE_SUCCESS (entry_of (ctx, song)))]).
Proof.
  intros st Hv Hch. subst st. unfold state_of in *. unfold_acts.
  unfold registered, entry_of.
  destruct (Music.voice_states self !! Message.server ctx) as [st|] eqn:Hst;
    cbn in Hv; crunch; try congruence;
    rewrite ?insert_insert_eq; reflexivity.
Qed.

Lemma plays_enqueue (k : string) (reqs : list (Message.t * string))
    (self : Music.t) (st : VoiceState.t) :
  Music.voice_states self !! k = Some st →
  is_Some (VoiceState.voice st) →
  Forall (λ req, Message.server req.1 = k) reqs →
  run (plays reqs) self
    = (Ret (),
       registered k
         (VoiceState.with_songs (VoiceState.songs st ++ (entry_of <$> reqs)) st)
         self,
       replies reqs).
Proof.
  revert self st. induction reqs as [|[ctx song] reqs IH];
    intros self st Hst Hv Hk.
  - cbn. rewrite app_nil_r.
    replace (VoiceState.with_songs (VoiceState.songs st) st) with st
      by by destruct st.
    by rewrite (registered_same _ _ _ Hst).
  - apply Forall_cons in Hk as [Hctx Hk]. cbn in Hctx. subst k.
    pose proof (play_with_voice ctx song self st None Hst Hv) as H1.
    apply (step_invoke ctx (Play song None None)) in H1.
    cbn [plays fmap list_fmap replies fst snd].
    rewrite (run_step_one _ _ _ _ _ H1).
    set (st1 := VoiceState.with_songs _ st) in *.
    pose proof (IH (registered (Message.server ctx) st1 self) st1
                  (registered_lookup _ _ _) Hv Hk) as H2.
    unfold plays in H2. rewrite H2. cbn.
    rewrite registered_twice. subst st1. cbn. by rewrite <- app_assoc.
Qed.

Lemma entries_fresh (reqs : list (Message.t * string)) :
  Forall (λ e, fresh (VoiceEntry.player e)) (entry_of <$> reqs).
Proof. apply Forall_fmap, Forall_forall. by intros [ctx song] _. Qed.

(** The thread of a stopped source leaves: the task is ready. *)
Lemma exit_makes_ready (k : string) (self : Music.t) (st : VoiceState.t)
    (c : VoiceEntry.t) :
  Music.voice_states self !! k = Some st →
  VoiceState.audio_player st = VoiceState.AwaitNext →
  VoiceState.current st = Some c →
  Player.started (VoiceEntry.player c) = true →
  Player.ended (VoiceEntry.player c) = true →
  Player.after_called (VoiceEntry.player c) = false →
  step (SourceExit k) self
    = (Ret (),
       registered k
         (VoiceState.with_play_next_song true
            (VoiceState.with_current (Some (finished c)) st))
         self,
       []).
Proof.
  intros Hst Hpc Hc Hs He Ha.
  unfold_acts. unfold Player.exit, registered, finished.
  rewrite Hst. cbn. rewrite Hst. cbn. rewrite Hc. cbn. rewrite Hs, He, Ha. cbn.
  reflexivity.
Qed.

(** The media of the current source ends and its thread leaves: the
    task is ready. *)
Lemma end_makes_ready (k : string) (self : Music.t) (st : VoiceState.t)
    (c : VoiceEntry.t) :
  Music.voice_states self !! k = Some st →
  VoiceState.audio_player st = VoiceState.AwaitNext →
  VoiceState.current st = Some c →
  Player.started (VoiceEntry.player c) = true →
  Player.ended (VoiceEntry.player c) = false →
  Player.resumed (VoiceEntry.player c) = true →
  Player.after_called (VoiceEntry.player c) = false →
  run [SourceEnd k; SourceExit k] self
    = (Ret (),
       registered k
         (VoiceState.with_play_next_song true
            (VoiceState.with_current (Some (finished c)) st))
         self,
       []).
Proof.
  intros Hst Hpc Hc Hs He Hr Ha.
  set (c1 := VoiceEntry.with_player (Player.stop (VoiceEntry.player c)) c).
  set (st1 := VoiceState.with_current (Some c1) st).
  assert (H1 : step (SourceEnd k) self = (Ret (), registered k st1 self, [])).
  { unfold_acts. unfold Player.finish. rewrite Hst. cbn. rewrite Hst. cbn.
    rewrite Hc. cbn. rewrite Hs, He, Hr. cbn. reflexivity. }
  pose proof (exit_makes_ready k (registered k st1 self) st1 c1
                (registered_lookup _ _ _) Hpc eq_refl Hs eq_refl Ha) as H2.
  rewrite (run_step_one _ _ _ _ _ H1), (run_step_one _ _ _ _ _ H2).
  cbn. by rewrite registered_twice.
Qed.

Lemma state_of_registered (k : string) (st : VoiceState.t) (self : Music.t) :
  state_of k (registered k st self) = st.
Proof. unfold state_of. by rewrite registered_lookup. Qed.

Lemma stop_drops_queue (ctx : Message.t) (d : option Exn) (self : Music.t) :
  announced (Message.server ctx) (effects (step (Invoke ctx (Stop d)) self)) = []
  ∧ enqueued (Message.server ctx) (effects (step (Invoke ctx (Stop d)) self)) = []
  ∧ VoiceState.songs
      (state_of (Message.server ctx)
         (state_after (step (Invoke ctx (Stop d)) self))) = [].
Proof.
  unfold effects, state_after, state_of. unfold_acts.
  crunch; rewrite ?delete_insert_eq, ?lookup_delete_eq; done.
Qed.

Lemma step_sublist (ev : Event) (self : Music.t) (k : string) :
  sound self →
  sublist
    (announced k (effects (step ev self))
       ++ VoiceState.songs (state_of k (state_after (step ev self))))
    (VoiceState.songs (state_of k self) ++ enqueued k (effects (step ev self))).
Proof.
  intros Hs. destruct (stops k ev) eqn:Hstop.
  - destruct ev as [ctx [] | | |]; try discriminate Hstop.
    cbn in Hstop. apply bool_decide_eq_true in Hstop as <-.
    destruct (stop_drops_queue ctx disconnect self) as (-> & _ & ->).
    apply sublist_nil_l.
  - pose proof (step_fifo ev self k Hs Hstop) as H. unfold fifo in H.
    by rewrite H.
Qed.

Lemma run_sublist (evs : list Event) (self : Music.t) (k : string) :
  sound self →
  sublist
    (announced k (effects (run evs self))
       ++ VoiceState.songs (state_of k (state_after (run evs self))))
    (VoiceState.songs (state_of k self) ++ enqueued k (effects (run evs self))).
Proof.
  revert self. induction evs as [|ev evs IH]; intros self Hs.
  - cbn. by rewrite app_nil_r.
  - pose proof (step_sublist ev self k Hs) as H1.
    pose proof (IH _ (step_sound ev self Hs)) as H2.
    rewrite run_cons.
    set (r1 := step ev self) in *. set (r2 := run evs (state_after r1)) in *.
    change (sublist
              (announced k (effects r1 ++ effects r2)
                 ++ VoiceState.songs (state_of k (state_after r2)))
              (VoiceState.songs (state_of k self)
                 ++ enqueued k (effects r1 ++ effects r2))).
    rewrite announced_app, enqueued_app.
    rewrite <- (app_assoc (announced k (effects r1))).
    rewrite (app_assoc (VoiceState.songs (state_of k self))).
    etrans; [apply sublist_app; [reflexivity | exact H2]|].
    rewrite app_assoc. apply sublist_app; [exact H1 | reflexivity].
Qed.

Lemma stopped_then_unregistered (before : list Event) (ctx : Message.t)
    (d : option Exn) (self : Music.t) :
  Music.voice_states
    (state_after (run (before ++ [Invoke ctx (Stop d)]) self))
    !! Message.server ctx = None.
Proof.
  rewrite run_app. unfold state_after at 1. cbn [fst snd].
  set (s1 := state_after (run before self)).
  rewrite run_cons. unfold state_after at 1. cbn [fst snd run].
  destruct (stop_unregisters s1 ctx d) as [Hr Hs].
  unfold step, invoke, try_else.
  destruct (Music.stop ctx d s1) as [[r s2] o2].
  unfold result, state_after in *. cbn in *. subst. cbn.
  apply lookup_delete_eq.
Qed.

(** C4. The entries of a server are played in the order in which [play]
    accepted them.
    In every run, over every stretch in which the server is not
    stopped, the entries that the player task has announced, followed
    by the entries still queued, are the entries queued at the start of
    the stretch followed by those that [play] has accepted since, in
    order; after a [stop] the stretch starts with an empty queue.  In
    every run whatsoever, the announced entries followed by the queued
    ones are a subsequence of the accepted entries: [stop] drops
    entries, nothing reorders or repeats them.
    [put] adds at the end of the queue; the task, where it takes a
    song, takes the head of the queue into [current], leaves the rest
    in order, and then starts the source it has announced; [skip]
    leaves the queue of every server as it is.
    The loop goes round: from a task that is ready to take a song, as
    many rounds as there are queued entries (the task announces the
    head of the queue, starts it once the announcement is delivered,
    the media ends, the thread of the source leaves) announce and start
    the queued entries one by one in the order of the queue, and leave
    the queue empty, the last entry in [current] with its source ended,
    and the task ready for the next one.  Requests that [play] accepts,
    whether the task is idle or an entry plays, are played after the
    entries that were queued before them, in the order of the requests;
    in a server without a voice client the first request joins the
    channel of its author first.
    A forced skip, by the requester or by the third vote, stops the
    current source only: once its thread has left, the queued entries
    are played in the order of the queue, none left out and none
    twice. *)
Theorem first_in_first_out (server : string) :
  (∀ before after,
     forallb (λ ev, negb (stops server ev)) after = true →
     let self := state_after (run before Music.init) in
     let r := run after self in
     announced server (effects r)
       ++ VoiceState.songs (state_of server (state_after r))
     = VoiceState.songs (state_of server self) ++ enqueued server (effects r))
  ∧ (∀ before ctx d after,
       Message.server ctx = server →
       forallb (λ ev, negb (stops server ev)) after = true →
       let self :=
         state_after (run (before ++ [Invoke ctx (Stop d)]) Music.init) in
       let r := run after self in
       announced server (effects r)
         ++ VoiceState.songs (state_of server (state_after r))
       = enqueued server (effects r))
  ∧ (∀ evs,
       let r := run evs Music.init in
       sublist
         (announced server (effects r)
            ++ VoiceState.songs (state_of server (state_after r)))
         (enqueued server (effects r)))
  ∧ (∀ st entry,
       VoiceState.songs (state_after (VoiceState.put entry st))
         = VoiceState.songs st ++ [entry])
  ∧ (∀ st entry rest,
       VoiceState.songs st = entry :: rest →
       VoiceState.audio_player st = VoiceState.NotStarted
       ∨ VoiceState.audio_player st = VoiceState.AwaitGet
       ∨ (VoiceState.audio_player st = VoiceState.AwaitNext
          ∧ VoiceState.play_next_song st = true) →
       let r := VoiceState.audio_player_task st in
       VoiceState.current (state_after r) = Some entry
       ∧ VoiceState.songs (state_after r) = rest
       ∧ VoiceState.audio_player (state_after r) = VoiceState.AwaitSend
       ∧ effects r = [SendMessage (VoiceEntry.channel entry) (NOW_PLAYING entry)])
  ∧ (∀ st entry,
       VoiceState.current st = Some entry →
       VoiceState.audio_player st = VoiceState.AwaitSend →
       VoiceState.play_next_song st = false →
       let r := VoiceState.audio_player_task st in
       VoiceState.current (state_after r)
         = Some (VoiceEntry.with_player
                   (Player.start (VoiceEntry.player entry)) entry)
       ∧ VoiceState.songs (state_after r) = VoiceState.songs st
       ∧ effects r = [SourceCall OpStart])
  ∧ (∀ st, VoiceState.songs (state_after (VoiceState.skip st))
           = VoiceState.songs st)
  ∧ (∀ ctx self k,
       VoiceState.songs (state_of k (state_after (Music.skip ctx self)))
         = VoiceState.songs (state_of k self))
  ∧ (∀ self st q,
       Music.voice_states self !! server = Some st →
       ready st →
       VoiceState.songs st = q →
       Forall (λ e, fresh (VoiceEntry.player e)) q →
       let r := run (play_through (length q) server) self in
       result r = Ret ()
       ∧ effects r = played q
       ∧ VoiceState.songs (state_of server (state_after r)) = []
       ∧ (∀ e, last q = Some e →
               VoiceState.current (state_of server (state_after r))
                 = Some (finished e))
       ∧ ready (state_of server (state_after r)))
  ∧ (∀ self st q reqs,
       Music.voice_states self !! server = Some st →
       is_Some (VoiceState.voice st) →
       ready st →
       VoiceState.songs st = q →
       Forall (λ e, fresh (VoiceEntry.player e)) q →
       Forall (λ req, Message.server req.1 = server) reqs →
       let entries := q ++ (entry_of <$> reqs) in
       let r := run (plays reqs ++ play_through (length entries) server) self in
       result r = Ret ()
       ∧ effects r = replies reqs ++ played entries
       ∧ VoiceState.songs (state_of server (state_after r)) = [])
  ∧ (∀ self req reqs ch,
       let st := state_of server self in
       VoiceState.voice st = None →
       Member.voice_channel (Message.author req.1) = Some ch →
       ready st →
       Forall (λ e, fresh (VoiceEntry.player e)) (VoiceState.songs st) →
       Forall (λ req, Message.server req.1 = server) (req :: reqs) →
       let entries := VoiceState.songs st ++ (entry_of <$> req :: reqs) in
       let r :=
         run (plays (req :: reqs) ++ play_through (length entries) server)
           self in
       result r = Ret ()
       ∧ effects r
         = Transport (Connect ch) :: replies (req :: reqs) ++ played entries
       ∧ VoiceState.songs (state_of server (state_after r)) = [])
  ∧ (∀ self st c q reqs,
       Music.voice_states self !! server = Some st →
       VoiceState.is_playing st = (Ret true, st, []) →
       VoiceState.current st = Some c →
       VoiceState.audio_player st = VoiceState.AwaitNext →
       Player.started (VoiceEntry.player c) = true →
       Player.resumed (VoiceEntry.player c) = true →
       Player.after_called (VoiceEntry.player c) = false →
       VoiceState.songs st = q →
       Forall (λ e, fresh (VoiceEntry.player e)) q →
       Forall (λ req, Message.server req.1 = server) reqs →
       let entries := q ++ (entry_of <$> reqs) in
       let r :=
         run (plays reqs ++ [SourceEnd server; SourceExit server]
                ++ play_through (length entries) server) self in
       result r = Ret ()
       ∧ effects r = replies reqs ++ played entries
       ∧ VoiceState.songs (state_of server (state_after r)) = [])
  ∧ (∀ ctx self st c q,
       let voter := Member.id (Message.author ctx) in
       let by_requester := voter = Member.id (VoiceEntry.requester c) in
       Message.server ctx = server →
       Music.voice_states self !! server = Some st →
       VoiceState.is_playing st = (Ret true, st, []) →
       VoiceState.current st = Some c →
       by_requester
       ∨ ((voter ∉ VoiceState.skip_votes st)
          ∧ 3 ≤ S (size (VoiceState.skip_votes st))) →
       VoiceState.audio_player st = VoiceState.AwaitNext →
       Player.started (VoiceEntry.player c) = true →
       Player.after_called (VoiceEntry.player c) = false →
       VoiceState.songs st = q →
       Forall (λ e, fresh (VoiceEntry.player e)) q →
       let r :=
         run (Invoke ctx Skip :: SourceExit server
                :: play_through (length q) server) self in
       result r = Ret ()
       ∧ effects r
         = Say (Message.channel ctx)
             (if bool_decide by_requester
              then SKIP_REQUESTER c (VoiceEntry.requester c)
              else SKIP_VOTE_PASSED None)
             :: SourceCall OpStop :: played q
       ∧ VoiceState.songs (state_of server (state_after r)) = []
       ∧ VoiceState.skip_votes (state_of server (state_after r)) = ∅).
Proof.
  split; [|split; [|split; [|split; [|split; [|split; [|split;
    [|split; [|split; [|split; [|split; [|split]]]]]]]]]]].
  - intros before after Hstop self r. subst r.
    apply (run_fifo after self server); [|done].
    apply run_sound, sound_init.
  - intros before ctx d after Hctx Hstop self r. subst r.
    pose proof (run_fifo after self server) as H. unfold fifo in H.
    rewrite H; [|apply run_sound, sound_init|done].
    pose proof (stopped_then_unregistered before ctx d Music.init) as Hnone.
    fold self in Hnone. rewrite Hctx in Hnone.
    unfold state_of. by rewrite Hnone.
  - intros evs r. subst r.
    apply (run_sublist evs Music.init server sound_init).
  - done.
  - intros st entry rest Hq Hpc r. subst r.
    unfold state_after, effects. unfold_acts.
    destruct Hpc as [Hpc|[Hpc|[Hpc Hev]]]; crunch; done.
  - intros st entry Hc Hpc Hev r. subst r.
    unfold state_after, effects. unfold_acts. crunch; done.
  - intros st. unfold state_after. unfold_acts. crunch; done.
  - intros ctx self k. apply skip_keeps_queue.
  - intros self st q Hst Hready Hq Hfresh r. subst r.
    rewrite (play_through_plays server q self st Hst Hready Hq Hfresh).
    unfold result, effects, state_after. cbn [fst snd].
    rewrite state_of_registered.
    split; [done|]. split; [done|]. split; [by apply after_songs_queue|].
    split; [|by apply after_songs_ready].
    intros e He. by rewrite after_songs_current, He.
  - intros self st q reqs Hst Hv Hready Hq Hfresh Hreqs entries r.
    subst r entries.
    pose proof (plays_enqueue server reqs self st Hst Hv Hreqs) as H1.
    rewrite Hq in H1.
    set (st1 := VoiceState.with_songs (q ++ (entry_of <$> reqs)) st) in *.
    assert (Hf : Forall (λ e, fresh (VoiceEntry.player e))
                   (q ++ (entry_of <$> reqs)))
      by (apply Forall_app; split; [done | apply entries_fresh]).
    pose proof (play_through_plays server (q ++ (entry_of <$> reqs))
                  (registered server st1 self) st1 (registered_lookup _ _ _)
                  Hready eq_refl Hf) as H2.
    rewrite (run_then _ _ _ _ _ _ _ H1 H2).
    unfold result, effects, state_after. cbn [fst snd].
    rewrite state_of_registered.
    split; [done|]. split; [done|]. by apply after_songs_queue.
  - intros self [ctx song] reqs ch st Hv Hch Hready Hfresh Hreqs entries r.
    subst r entries. cbn [fst] in Hch.
    apply Forall_cons in Hreqs as [Hctx Hreqs]. cbn in Hctx. subst server.
    pose proof (play_without_voice ctx song self ch Hv Hch) as H1.
    cbn zeta in H1. fold st in H1.
    apply (step_invoke ctx (Play song None None)) in H1.
    set (st1 := VoiceState.with_songs _ _) in H1.
    pose proof (plays_enqueue (Message.server ctx) reqs
                  (registered (Message.server ctx) st1 self) st1
                  (registered_lookup _ _ _) (mk_is_Some _ _ eq_refl) Hreqs)
      as H2.
    rewrite registered_twice in H2.
    set (st2 := VoiceState.with_songs _ st1) in H2.
    assert (Hq2 : VoiceState.songs st2
                  = VoiceState.songs st ++ (entry_of <$> (ctx, song) :: reqs))
      by (subst st2 st1; cbn; by rewrite <- app_assoc).
    assert (Hf : Forall (λ e, fresh (VoiceEntry.player e))
                   (VoiceState.songs st ++ (entry_of <$> (ctx, song) :: reqs)))
      by (apply Forall_app; split; [done | apply entries_fresh]).
    pose proof (play_through_plays (Message.server ctx) _
                  (registered (Message.server ctx) st2 self) st2
                  (registered_lookup _ _ _) Hready Hq2 Hf) as H3.
    rewrite registered_twice in H3.
    change (plays ((ctx, song) :: reqs))
      with (Invoke ctx (Play song None None) :: plays reqs).
    rewrite <- app_comm_cons, (run_step_one _ _ _ _ _ H1),
      (run_then _ _ _ _ _ _ _ H2 H3).
    unfold result, effects, state_after. cbn [fst snd].
    rewrite state_of_registered.
    split; [done|]. split; [done|].
    apply after_songs_queue. done.
  - intros self st c q reqs Hst Hplay Hc Hpc Hs Hr Ha Hq Hfresh Hreqs entries r.
    subst r entries.
    apply is_playing_true in Hplay as (v & c' & Hv & Hc' & Hd).
    assert (c' = c) as -> by congruence.
    pose proof (plays_enqueue server reqs self st Hst (mk_is_Some _ _ Hv) Hreqs)
      as H1.
    rewrite Hq in H1.
    set (st1 := VoiceState.with_songs (q ++ (entry_of <$> reqs)) st) in *.
    pose proof (end_makes_ready server (registered server st1 self) st1 c
                  (registered_lookup _ _ _) Hpc Hc Hs Hd Hr Ha) as H2.
    rewrite registered_twice in H2.
    set (st2 := VoiceState.with_play_next_song true _) in *.
    assert (Hf : Forall (λ e, fresh (VoiceEntry.player e))
                   (q ++ (entry_of <$> reqs)))
      by (apply Forall_app; split; [done | apply entries_fresh]).
    assert (Hready : ready st2) by (right; right; by split).
    pose proof (play_through_plays server (q ++ (entry_of <$> reqs))
                  (registered server st2 self) st2 (registered_lookup _ _ _)
                  Hready eq_refl Hf) as H3.
    rewrite registered_twice in H3.
    rewrite (run_then _ _ _ _ _ _ _ H1 (run_then _ _ _ _ _ _ _ H2 H3)).
    unfold result, effects, state_after. cbn [fst snd].
    rewrite state_of_registered.
    split; [done|]. split; [done|]. by apply after_songs_queue.
  - intros ctx self st c q voter by_requester <- Hst Hplay Hc Hforced Hpc Hs Ha
      Hq Hfresh r.
    subst r voter by_requester.
    set (st1 := VoiceState.with_current
                  (Some (VoiceEntry.with_player
                           (Player.stop (VoiceEntry.player c)) c))
                  (VoiceState.with_skip_votes ∅ st)).
    assert (H1 : Music.skip ctx self
                 = (Ret (), registered (Message.server ctx) st1 self,
                    [Say (Message.channel ctx)
                       (if bool_decide (Member.id (Message.author ctx)
                                        = Member.id (VoiceEntry.requester c))
                        then SKIP_REQUESTER c (VoiceEntry.requester c)
                        else SKIP_VOTE_PASSED None);
                     SourceCall OpStop])).
    { case_bool_decide as Hreq.
      - by apply skip_requester.
      - destruct Hforced as [?|[Hin Hsz]]; [done|].
        rewrite (skip_vote self ctx st c Hst Hplay Hc Hreq). cbn zeta.
        rewrite bool_decide_eq_false_2 by done.
        rewrite size_add_vote by done.
        by rewrite bool_decide_eq_true_2 by done. }
    apply (step_invoke ctx Skip) in H1.
    pose proof (exit_makes_ready (Message.server ctx)
                  (registered (Message.server ctx) st1 self) st1
                  (VoiceEntry.with_player (Player.stop (VoiceEntry.player c)) c)
                  (registered_lookup _ _ _) Hpc eq_refl Hs eq_refl Ha) as H2.
    rewrite registered_twice in H2.
    set (st2 := VoiceState.with_play_next_song true _) in *.
    assert (Hready : ready st2) by (right; right; by split).
    pose proof (play_through_plays (Message.server ctx) q
                  (registered (Message.server ctx) st2 self) st2
                  (registered_lookup _ _ _) Hready Hq Hfresh) as H3.
    rewrite registered_twice in H3.
    rewrite (run_step_one _ _ _ _ _ H1), (run_step_one _ _ _ _ _ H2), H3.
    unfold result, effects, state_after. cbn [fst snd].
    rewrite state_of_registered.
    split; [done|]. split; [done|]. split; [by apply after_songs_queue|].
    by destruct (after_songs_rest q st2) as [_ ->].
Qed.

(** C4, witness: from the empty registry, [ann] and [bob] ask for songs
    A and B; the channel of [ann] is joined and the task plays A to its
    end, then B. *)
Lemma first_in_first_out_witness :
  effects
    (run (plays [(by_ ann, "A"); (by_ bob, "B")] ++ play_through 2 "guild")
       Music.init)
  = [Transport (Connect lounge);
     Say general (ENQUEUE_SUCCESS song_a);
     Say general (ENQUEUE_SUCCESS song_b);
     SendMessage general (NOW_PLAYING song_a); SourceCall OpStart;
     SendMessage general (NOW_PLAYING song_b); SourceCall OpStart].
Proof.
  destruct (first_in_first_out "guild")
    as (_ & _ & _ & _ & _ & _ & _ & _ & _ & _ & H & _).
  destruct (H Music.init (by_ ann, "A") [(by_ bob, "B")] lounge)
    as (_ & He & _);
    [reflexivity | reflexivity | by left | constructor
    | by repeat constructor |].
  exact He.
Defined.

(** * Further properties of the cog *)

(** ** What holds of every registered state, continued *)

Lemma all_states_init (P : VoiceState.t → Prop) : all_states P Music.init.
Proof. intros k st. cbn. by rewrite lookup_empty. Qed.

Lemma all_states_insert (P : VoiceState.t → Prop) (self : Music.t)
    (k : string) (st : VoiceState.t) :
  all_states P self → P st →
  all_states P (Music.mk (<[k := st]> (Music.voice_states self))).
Proof.
  intros Ha Hp k' st'. cbn. rewrite lookup_insert.
  case_decide; [|apply Ha]. by intros [= <-].
Qed.

Lemma all_states_delete (P : VoiceState.t → Prop) (self : Music.t)
    (k : string) :
  all_states P self →
  all_states P (Music.mk (delete k (Music.voice_states self))).
Proof.
  intros Ha k' st'. cbn. rewrite lookup_delete.
  case_decide; [done | apply Ha].
Qed.

Lemma tidy_init : tidy VoiceState.init.
Proof.
  split; [constructor|]. split; [|done]. cbn. rewrite size_empty. lia.
Qed.

Ltac split_andb :=
  repeat match goal with
    | H : _ && _ = true |- _ => apply andb_true_iff in H as [? ?]
    end.

Ltac tidy_goal :=
  repeat match goal with
    | Ha : all_states tidy ?m, H : Music.voice_states ?m !! _ = Some _ |- _ =>
        apply Ha in H; destruct H as (? & ? & ?)
    end;
  repeat match goal with
    | Ha : all_states _ _ |- _ => clear Ha
    end;
  unfold tidy, coherent, fresh, Player.finish, Player.exit in *;
  repeat match goal with
    | t : VoiceState.t |- _ => destruct t
    | c : VoiceEntry.t |- _ => destruct c
    | p : Player.t |- _ => destruct p
    end;
  cbn in *; simplify_eq; cbn in *;
  repeat match goal with
    | F : Forall _ (_ :: _) |- _ => apply Forall_cons in F as [? ?]
    | H : (if ?b then _ else _) = Some _ |- _ =>
        destruct b eqn:?; [|discriminate H]
    end;
  bool_hyps; split_andb; bool_hyps;
  unfold Player.set_volume, Player.create, Player.stop, Player.start,
    Player.pause, Player.resume in *;
  cbn in *; simplify_eq; cbn in *;
  rewrite ?Forall_app, ?Forall_cons, ?Forall_nil, ?size_empty;
  repeat match goal with
    | |- context [match ?x with _ => _ end] => is_var x; destruct x
    | H : context [match ?x with _ => _ end] |- _ => is_var x; destruct x
    end;
  cbn in *; intuition (try first [congruence | lia | eauto using eq_sym]).

Ltac all_states_tac :=
  rewrite ?insert_insert_eq, ?delete_insert_eq;
  first [ assumption
        | apply all_states_delete; assumption
        | apply all_states_insert;
          [assumption | first [apply tidy_init | tidy_goal]] ].

Lemma step_tidy (ev : Event) (self : Music.t) :
  all_states tidy self → all_states tidy (state_after (step ev self)).
Proof.
  intros Hs. unfold state_after.
  destruct ev as [ctx [] | k | k | k]; unfold_acts.
  all: crunch.
  all: all_states_tac.
Qed.

Lemma run_tidy (evs : list Event) (self : Music.t) :
  all_states tidy self → all_states tidy (state_after (run evs self)).
Proof.
  revert self. induction evs as [|ev evs IH]; intros self Hs; [done|].
  rewrite run_cons. unfold state_after at 1. cbn [fst snd].
  apply IH. by apply step_tidy.
Qed.

Lemma reachable_tidy (evs : list Event) (server : string) (st : VoiceState.t) :
  Music.voice_states (state_after (run evs Music.init)) !! server = Some st →
  tidy st.
Proof. apply (run_tidy evs Music.init (all_states_init tidy)). Qed.

(** X2. In every state that a run of the cog registers, the entries that
    wait in the queue are as [play] made them: their source is not
    started, not stopped, not paused, and its volume is 0.6.  Calls on a
    source reach the current entry only. *)
Theorem queued_entries_untouched (evs : list Event) (server : string)
    (st : VoiceState.t) (e : VoiceEntry.t) :
  Music.voice_states (state_after (run evs Music.init)) !! server = Some st →
  e ∈ VoiceState.songs st →
  Player.started (VoiceEntry.player e) = false
  ∧ Player.ended (VoiceEntry.player e) = false
  ∧ Player.resumed (VoiceEntry.player e) = true
  ∧ Player.after_called (VoiceEntry.player e) = false
  ∧ Player.volume (VoiceEntry.player e) = 6 # 10.
Proof.
  intros (Hq & _)%reachable_tidy He.
  rewrite Forall_forall in Hq. specialize (Hq e He). unfold fresh in Hq.
  rewrite Hq. by cbn.
Qed.

Lemma queued_entries_untouched_witness :
  Player.started (VoiceEntry.player song_b) = false
  ∧ Player.ended (VoiceEntry.player song_b) = false
  ∧ Player.resumed (VoiceEntry.player song_b) = true
  ∧ Player.after_called (VoiceEntry.player song_b) = false
  ∧ Player.volume (VoiceEntry.player song_b) = 6 # 10.
Proof.
  apply (queued_entries_untouched
           [Invoke (by_ ann) (Play "A" None None);
            Invoke (by_ bob) (Play "B" None None);
            Schedule "guild"; Schedule "guild";
            Invoke (by_ cyd) (Volume 150); Invoke (by_ cyd) Pause]
           "guild"
           (state_of "guild"
              (state_after
                 (run [Invoke (by_ ann) (Play "A" None None);
                       Invoke (by_ bob) (Play "B" None None);
                       Schedule "guild"; Schedule "guild";
                       Invoke (by_ cyd) (Volume 150); Invoke (by_ cyd) Pause]
                    Music.init)))).
  - reflexivity.
  - vm_compute. apply list_elem_of_here.
Defined.

(** X4. In every state that a run of the cog registers: wherever the
    task is at a point from which it takes the next song (not yet
    started, waiting in [songs.get()], or waiting for [play_next_song]
    with the event set), the source of the current entry, if there is
    one, reports done; and the event [play_next_song] is set only while
    the task waits for it, after the thread of the current source has
    left.  No two sources of one server play at a time. *)
Theorem next_song_only_after_done (evs : list Event) (server : string)
    (st : VoiceState.t) :
  Music.voice_states (state_after (run evs Music.init)) !! server = Some st →
  (∀ c,
     VoiceState.current st = Some c →
     VoiceState.audio_player st = VoiceState.NotStarted
     ∨ VoiceState.audio_player st = VoiceState.AwaitGet
     ∨ (VoiceState.audio_player st = VoiceState.AwaitNext
        ∧ VoiceState.play_next_song st = true) →
     Player.is_done (VoiceEntry.player c) = true)
  ∧ (VoiceState.play_next_song st = true →
     VoiceState.audio_player st = VoiceState.AwaitNext
     ∧ ∃ c, VoiceState.current st = Some c
            ∧ Player.after_called (VoiceEntry.player c) = true
            ∧ Player.is_done (VoiceEntry.player c) = true).
Proof.
  intros (_ & _ & Hc)%reachable_tidy. unfold coherent in Hc.
  unfold Player.is_done. split.
  - intros c Hcur Hpc. rewrite Hcur in Hc.
    destruct (VoiceState.audio_player st);
      destruct Hpc as [?|[?|[? Hev]]]; try done.
    + by destruct Hc as (_ & _ & ? & _).
    + destruct Hc as (_ & Heq & Hend). apply Hend. congruence.
  - intros Hev.
    destruct (VoiceState.audio_player st), (VoiceState.current st) as [c|];
      try done; try congruence.
    + destruct Hc as [Hf _]. congruence.
    + destruct Hc as [Hf _]. congruence.
    + destruct Hc as (_ & Heq & Hend). split; [done|].
      exists c. split; [done|]. split; [congruence|]. apply Hend. congruence.
Qed.

Lemma next_song_only_after_done_witness :
  let st :=
    state_of "guild"
      (state_after
         (run [Invoke (by_ ann) Skip; SourceExit "guild"] a_playing_b_queued)) in
  VoiceState.play_next_song st = true
  ∧ VoiceState.audio_player st = VoiceState.AwaitNext
  ∧ ∃ c, VoiceState.current st = Some c
         ∧ Player.after_called (VoiceEntry.player c) = true
         ∧ Player.is_done (VoiceEntry.player c) = true.
Proof.
  intros st. split; [reflexivity|].
  apply (next_song_only_after_done
           [Invoke (by_ ann) (Play "A" None None);
            Invoke (by_ bob) (Play "B" None None);
            Schedule "guild"; Schedule "guild";
            Invoke (by_ ann) Skip; SourceExit "guild"]
           "guild" st); reflexivity.
Defined.

(** ** One server at a time *)

(** X5. An event changes the registry entry of no server but the one it
    works on: the server of the invoking message, for [join] the server
    of the channel that is joined, for a turn of the task or of the
    source thread the server it belongs to. *)
Theorem other_servers_untouched (ev : Event) (self : Music.t) (k : string) :
  concerns ev ≠ Some k →
  Music.voice_states (state_after (step ev self)) !! k
    = Music.voice_states self !! k.
Proof.
  intros Hk. unfold state_after.
  destruct ev as [ctx [] | k' | k' | k']; unfold_acts.
  all: crunch.
  all: try match goal with
         | H : Member.voice_channel _ = _, Hc : concerns _ ≠ _ |- _ =>
             cbn in Hc; rewrite H in Hc
         end.
  all: match goal with Hc : _ ≠ Some _ |- _ => cbn in Hc end.
  all: rewrite ?insert_insert_eq, ?delete_insert_eq.
  all: try done.
  all: first [ rewrite lookup_insert_ne by congruence
             | rewrite lookup_delete_ne by congruence ].
  all: done.
Qed.

Lemma other_servers_untouched_witness :
  Music.voice_states
    (state_after (step (Invoke (Message.mk bob (Channel.mk "chat" "other"))
                          (Play "B" None None))
                    song_a_playing)) !! "guild"
  = Music.voice_states song_a_playing !! "guild".
Proof. by apply other_servers_untouched. Defined.

(** X6. Only [skip], and [stop] which drops the state, change the votes:
    every other event leaves [skip_votes] of every server as it is.
    The task does not clear the votes when it takes the next song. *)
Theorem only_skip_changes_votes (ev : Event) (self : Music.t) (k : string) :
  is_skip ev = false → stops k ev = false →
  VoiceState.skip_votes (state_of k (state_after (step ev self)))
    = VoiceState.skip_votes (state_of k self).
Proof.
  intros Hskip Hstop. unfold state_after.
  destruct ev as [ctx [] | k' | k' | k']; try discriminate Hskip;
    unfold_acts.
  all: crunch.
  all: match goal with H : stops _ _ = false |- _ => cbn in H end; bool_hyps.
  all: fifo_tac k.
  all: done.
Qed.

Lemma only_skip_changes_votes_witness :
  let voted := state_after (Music.skip (by_ bob) a_playing_b_queued) in
  VoiceState.skip_votes
    (state_of "guild" (state_after (step (Schedule "guild") voted)))
  = VoiceState.skip_votes (state_of "guild" voted).
Proof. intros voted. by apply only_skip_changes_votes. Defined.

Ltac split_key k :=
  try match goal with
    | |- context [<[?key := _]> _ !! k] =>
        destruct (decide (key = k)) as [?|?];
        [subst; rewrite ?lookup_insert_eq
        | rewrite ?lookup_insert_ne by done]
    | |- context [delete ?key _ !! k] =>
        destruct (decide (key = k)) as [?|?];
        [subst; rewrite ?lookup_delete_eq
        | rewrite ?lookup_delete_ne by done]
    end.

Lemma step_keeps_voice (ev : Event) (self : Music.t) (k : string) :
  stops k ev = false →
  is_Some (VoiceState.voice (state_of k self)) →
  is_Some (Music.voice_states self !! k) →
  is_Some (VoiceState.voice (state_of k (state_after (step ev self))))
  ∧ is_Some (Music.voice_states (state_after (step ev self)) !! k).
Proof.
  intros Hstop Hv [st Hst]. unfold state_after, state_of in *.
  rewrite Hst in Hv. cbn in Hv.
  destruct ev as [ctx [] | k' | k' | k']; unfold_acts.
  all: crunch.
  all: match goal with H : stops _ _ = false |- _ => cbn in H end; bool_hyps.
  all: unfold Message.server in *; rewrite ?insert_insert_eq, ?delete_insert_eq.
  all: split_key k.
  all: rewrite ?Hst; cbn; simplify_eq; cbn; try done.
  all: split; first [done | by eexists | congruence].
Qed.

(** X7. A server that is registered with a voice client stays
    registered with a voice client through every run that does not
    [stop] it: no other command and no turn of the task removes a state
    or resets [voice]. *)
Theorem joined_until_stop (evs : list Event) (self : Music.t) (k : string) :
  forallb (λ ev, negb (stops k ev)) evs = true →
  is_Some (Music.voice_states self !! k) →
  is_Some (VoiceState.voice (state_of k self)) →
  is_Some (Music.voice_states (state_after (run evs self)) !! k)
  ∧ is_Some (VoiceState.voice (state_of k (state_after (run evs self)))).
Proof.
  revert self. induction evs as [|ev evs IH]; intros self Hstop Hreg Hv;
    [done|].
  cbn in Hstop. apply andb_true_iff in Hstop as [Hev Hevs].
  apply negb_true_iff in Hev.
  destruct (step_keeps_voice ev self k Hev Hv Hreg) as [Hv' Hreg'].
  rewrite run_cons. unfold state_after at 1 3. cbn [fst snd].
  by apply IH.
Qed.

Lemma joined_until_stop_witness :
  is_Some (VoiceState.voice
             (state_of "guild"
                (state_after
                   (run [Invoke (by_ ann) Skip; SourceExit "guild";
                         Schedule "guild"; Schedule "guild";
                         Invoke (by_ cyd) (Play "C" None (Some OtherException))]
                      a_playing_b_queued)))).
Proof.
  apply (joined_until_stop
           [Invoke (by_ ann) Skip; SourceExit "guild";
            Schedule "guild"; Schedule "guild";
            Invoke (by_ cyd) (Play "C" None (Some OtherException))]
           a_playing_b_queued "guild");
    [reflexivity | by eexists | by eexists].
Defined.

(** ** [join], [summon] and [play] *)

Ltac finish_state Hst :=
  unfold registered, state_of; rewrite ?Hst; cbn;
  rewrite ?insert_insert_eq, ?(insert_same _ _ _ Hst); reflexivity.

(** X8. [join] with nothing to join (no channel given and the author in
    no voice channel) replies [NOT_A_VOICE_CHANNEL] without a connection
    attempt.  With a channel: a [ClientException] of the library is
    answered by [IN_ANOTHER_VOICE_CHANNEL], an [InvalidArgument] by
    [NOT_A_VOICE_CHANNEL], both without an error for the caller; any
    other exception reaches the caller; none of these changes the
    registry.  A connection that succeeds is stored as the voice client
    of the state of the channel's server, which is registered if need
    be, and [READY_TO_PLAY] is sent; queue, current entry and votes of
    that state stay. *)
Theorem join_outcomes (ctx : Message.t) (channel : option Channel.t)
    (self : Music.t) :
  let target :=
    match channel with
    | None => Member.voice_channel (Message.author ctx)
    | Some _ => channel
    end in
  (target = None →
   ∀ connect,
     Music.join ctx channel connect self
       = (Ret (), self, [Say (Message.channel ctx) NOT_A_VOICE_CHANNEL]))
  ∧ (∀ ch,
       target = Some ch →
       Music.join ctx channel (Some ClientException) self
         = (Ret (), self,
            [Transport (Connect ch);
             Say (Message.channel ctx) IN_ANOTHER_VOICE_CHANNEL])
       ∧ Music.join ctx channel (Some InvalidArgument) self
         = (Ret (), self,
            [Transport (Connect ch);
             Say (Message.channel ctx) NOT_A_VOICE_CHANNEL])
       ∧ (∀ e, e ≠ ClientException → e ≠ InvalidArgument →
               Music.join ctx channel (Some e) self
                 = (Raise e, self, [Transport (Connect ch)]))
       ∧ Music.join ctx channel None self
         = (Ret (),
            registered (Channel.server ch)
              (VoiceState.with_voice (Some (VoiceClient.mk ch))
                 (state_of (Channel.server ch) self)) self,
            [Transport (Connect ch);
             Say (Message.channel ctx) (READY_TO_PLAY (Some ch))])).
Proof.
  intros target. subst target. split.
  - intros Hnone connect. unfold_acts. rewrite Hnone. by crunch.
  - intros ch Hsome. split; [|split; [|split]].
    + unfold_acts. rewrite Hsome. by crunch.
    + unfold_acts. rewrite Hsome. by crunch.
    + intros e He1 He2. unfold_acts. rewrite Hsome. by crunch.
    + unfold_acts. rewrite Hsome.
      destruct (Music.voice_states self !! Channel.server ch) as [st|] eqn:Hst;
        crunch; finish_state Hst.
Qed.

Lemma join_outcomes_witness :
  Music.join (by_ ann) None None Music.init
    = (Ret (),
       registered "guild"
         (VoiceState.with_voice (Some (VoiceClient.mk lounge))
            (state_of "guild" Music.init)) Music.init,
       [Transport (Connect lounge); Say general (READY_TO_PLAY (Some lounge))]).
Proof.
  destruct (join_outcomes (by_ ann) None Music.init) as [_ H].
  destruct (H lounge) as (_ & _ & _ & Hok); [reflexivity|]. exact Hok.
Defined.

(** X9. [summon] by an author who is in a voice channel, with a library
    call that succeeds, returns true: it connects to that channel when
    the state of the server has no voice client, and moves the voice
    client it has otherwise; only [voice] changes. *)
Theorem summon_connects_or_moves (ctx : Message.t) (self : Music.t)
    (ch : Channel.t) :
  let server := Message.server ctx in
  let st := state_of server self in
  Member.voice_channel (Message.author ctx) = Some ch →
  Music.summon ctx None self
    = (Ret true,
       registered server (VoiceState.with_voice (Some (VoiceClient.mk ch)) st)
         self,
       [Transport (match VoiceState.voice st with
                   | None => Connect ch
                   | Some _ => MoveTo ch
                   end)]).
Proof.
  intros server st Hch. subst server st. unfold state_of. unfold_acts.
  rewrite Hch.
  destruct (Music.voice_states self !! Message.server ctx) as [st|] eqn:Hst;
    cbn; crunch; finish_state Hst.
Qed.

Lemma summon_connects_or_moves_witness :
  effects (Music.summon (by_ bob) None song_a_playing)
    = [Transport (MoveTo lounge)].
Proof.
  rewrite (summon_connects_or_moves (by_ bob) song_a_playing lounge);
    reflexivity.
Defined.

(** X10. [play] of a song that resolves: with a voice client already
    there no connection is attempted, else the author's channel is
    joined first; then [ENQUEUE_SUCCESS] is sent and one entry is added
    at the end of the queue, with the author as requester, the channel
    of the message, and a source that is not started and has volume
    0.6.  The current entry and the votes stay. *)
Theorem play_enqueues (ctx : Message.t) (song : string) (self : Music.t) :
  let server := Message.server ctx in
  let st := state_of server self in
  let entry :=
    VoiceEntry.mk (Message.author ctx) (Message.channel ctx)
      (Player.set_volume (6 # 10) (Player.create song)) in
  (∀ connect,
     is_Some (VoiceState.voice st) →
     Music.play ctx song connect None self
       = (Ret (),
          registered server
            (VoiceState.with_songs (VoiceState.songs st ++ [entry]) st) self,
          [Say (Message.channel ctx) (ENQUEUE_SUCCESS entry)]))
  ∧ (∀ ch,
       VoiceState.voice st = None →
       Member.voice_channel (Message.author ctx) = Some ch →
       Music.play ctx song None None self
         = (Ret (),
            registered server
              (VoiceState.with_songs (VoiceState.songs st ++ [entry])
                 (VoiceState.with_voice (Some (VoiceClient.mk ch)) st)) self,
            [Transport (Connect ch);
             Say (Message.channel ctx) (ENQUEUE_SUCCESS entry)])).
Proof.
  intros server st entry. subst server st entry. split.
  - intros connect [v Hv]. unfold state_of in Hv. unfold_acts.
    destruct (Music.voice_states self !! Message.server ctx) as [st|] eqn:Hst;
      cbn in Hv; [|discriminate Hv].
    crunch; try congruence. finish_state Hst.
  - intros ch Hv Hch. unfold state_of in Hv. unfold_acts.
    destruct (Music.voice_states self !! Message.server ctx) as [st|] eqn:Hst;
      cbn in Hv; crunch; try congruence; finish_state Hst.
Qed.

Lemma play_enqueues_witness :
  Music.play (by_ bob) "B" None None song_a_playing
    = (Ret (),
       registered "guild"
         (VoiceState.with_songs
            (VoiceState.songs (state_of "guild" song_a_playing) ++ [song_b])
            (state_of "guild" song_a_playing))
         song_a_playing,
       [Say general (ENQUEUE_SUCCESS song_b)]).
Proof.
  destruct (play_enqueues (by_ bob) "B" song_a_playing) as [H _].
  apply H. by eexists.
Defined.

(** X11. How [play] fails.  A song that cannot be resolved is reported in
    the channel of the message and the command returns normally; with a
    voice client there, nothing at all changes.  A connection that
    fails reaches the caller as the exception, and nothing is sent.  An
    author in no voice channel gets [USER_NOT_IN_VOICE_CHANNEL] and the
    command returns normally, without a connection attempt. *)
Theorem play_failures (ctx : Message.t) (song : string) (self : Music.t) :
  let server := Message.server ctx in
  let st := state_of server self in
  (∀ st' connect e,
     Music.voice_states self !! server = Some st' →
     is_Some (VoiceState.voice st') →
     Music.play ctx song connect (Some e) self
       = (Ret (), self,
          [SendMessage (Message.channel ctx) (PROCESSING_ERROR e)]))
  ∧ (∀ ch resolve e,
       VoiceState.voice st = None →
       Member.voice_channel (Message.author ctx) = Some ch →
       result (Music.play ctx song (Some e) resolve self) = Raise e
       ∧ effects (Music.play ctx song (Some e) resolve self)
         = [Transport (Connect ch)])
  ∧ (∀ connect resolve,
       VoiceState.voice st = None →
       Member.voice_channel (Message.author ctx) = None →
       result (Music.play ctx song connect resolve self) = Ret ()
       ∧ effects (Music.play ctx song connect resolve self)
         = [Say (Message.channel ctx) USER_NOT_IN_VOICE_CHANNEL]).
Proof.
  intros server st. subst server st. split; [|split].
  - intros st' connect e Hst [v Hv]. unfold_acts.
    crunch; try congruence. finish_state Hst.
  - intros ch resolve e Hv Hch. unfold state_of in Hv.
    unfold result, effects. unfold_acts.
    destruct (Music.voice_states self !! Message.server ctx) as [st|] eqn:Hst;
      cbn in Hv; crunch; done.
  - intros connect resolve Hv Hch. unfold state_of in Hv.
    unfold result, effects. unfold_acts.
    destruct (Music.voice_states self !! Message.server ctx) as [st|] eqn:Hst;
      cbn in Hv; crunch; done.
Qed.

Lemma play_failures_witness :
  Music.play (by_ bob) "B" None (Some OtherException) song_a_playing
    = (Ret (), song_a_playing,
       [SendMessage general (PROCESSING_ERROR OtherException)]).
Proof.
  destruct (play_failures (by_ bob) "B" song_a_playing) as [H _].
  apply (H (state_of "guild" song_a_playing)); [reflexivity | by eexists].
Defined.

(** ** [skip] with nothing to skip, and the task while it waits *)

(** X12. [skip] while nothing plays (no current entry, or one whose
    source is done) replies [NOT_PLAYING] and records no vote: a
    registered state is left exactly as it is, also for the requester
    of the entry that has ended. *)
Theorem skip_when_idle (ctx : Message.t) (self : Music.t) (st : VoiceState.t) :
  Music.voice_states self !! Message.server ctx = Some st →
  VoiceState.is_playing st = (Ret false, st, []) →
  Music.skip ctx self
    = (Ret (), self, [Say (Message.channel ctx) NOT_PLAYING]).
Proof.
  intros Hst Hidle.
  assert (Hnot : VoiceState.is_playing st ≠ (Ret true, st, [])) by congruence.
  unfold_acts. crunch; bool_hyps;
    rewrite ?insert_insert_eq, ?(insert_same _ _ _ Hst); try done.
  all: exfalso; apply Hnot, is_playing_true; eauto.
Qed.

Lemma skip_when_idle_witness :
  let ended :=
    state_after (run [SourceEnd "guild"; SourceExit "guild"] song_a_playing) in
  Music.skip (by_ bob) ended = (Ret (), ended, [Say general NOT_PLAYING]).
Proof.
  intros ended.
  apply (skip_when_idle (by_ bob) ended (state_of "guild" ended));
    reflexivity.
Defined.

(** X13. The task does not run ahead.  While it waits for
    [play_next_song] and the event is not set, scheduling it does
    nothing, whatever is queued: a song that is queued does not
    interrupt the current one.  With an empty queue, a task that is at
    the top of its loop or in [songs.get()] sends nothing and leaves
    [current] and the queue alone. *)
Theorem task_waits (st : VoiceState.t) :
  (VoiceState.audio_player st = VoiceState.AwaitNext →
   VoiceState.play_next_song st = false →
   VoiceState.audio_player_task st = (Ret (), st, []))
  ∧ (VoiceState.songs st = [] →
     VoiceState.audio_player st = VoiceState.AwaitGet →
     VoiceState.audio_player_task st = (Ret (), st, []))
  ∧ (VoiceState.songs st = [] →
     VoiceState.audio_player st = VoiceState.NotStarted →
     VoiceState.audio_player_task st
       = (Ret (),
          VoiceState.with_audio_player VoiceState.AwaitGet
            (VoiceState.with_play_next_song false st),
          [])).
Proof.
  split; [|split].
  - intros Hpc Hev. unfold_acts. crunch. all: done.
  - intros Hq Hpc. unfold_acts. crunch. all: try done.
    destruct st. cbn in *. by subst.
  - intros Hq Hpc. unfold_acts. crunch. all: done.
Qed.

Lemma task_waits_witness :
  VoiceState.audio_player_task (state_of "guild" a_playing_b_queued)
    = (Ret (), state_of "guild" a_playing_b_queued, []).
Proof.
  destruct (task_waits (state_of "guild" a_playing_b_queued)) as [H _].
  apply H; reflexivity.
Defined.

(** ** From one song to the next *)

(** The thread of a stopped source leaves; the task, waiting in
    [play_next_song.wait()], then takes the head of the queue,
    announces it and starts it. *)
Lemma exit_then_next (k : string) (self : Music.t) (st : VoiceState.t)
    (c e : VoiceEntry.t) (rest : list VoiceEntry.t) :
  Music.voice_states self !! k = Some st →
  VoiceState.audio_player st = VoiceState.AwaitNext →
  VoiceState.current st = Some c →
  Player.started (VoiceEntry.player c) = true →
  Player.ended (VoiceEntry.player c) = true →
  Player.after_called (VoiceEntry.player c) = false →
  VoiceState.songs st = e :: rest →
  run [SourceExit k; Schedule k; Schedule k] self
    = (Ret (),
       registered k
         (VoiceState.with_play_next_song false
            (VoiceState.with_songs rest
               (VoiceState.with_current
                  (Some (VoiceEntry.with_player
                           (Player.start (VoiceEntry.player e)) e))
                  st)))
         self,
       [SendMessage (VoiceEntry.channel e) (NOW_PLAYING e); SourceCall OpStart]).
Proof.
  intros Hst Hpc Hc Hs He Ha Hq.
  set (p1 := Player.mk (Player.title (VoiceEntry.player c)) true true
               (Player.resumed (VoiceEntry.player c)) true
               (Player.volume (VoiceEntry.player c))).
  set (st1 := VoiceState.with_play_next_song true
                (VoiceState.with_current
                   (Some (VoiceEntry.with_player p1 c)) st)).
  set (st2 := VoiceState.with_audio_player VoiceState.AwaitSend
                (VoiceState.with_current (Some e)
                   (VoiceState.with_songs rest
                      (VoiceState.with_play_next_song false st1)))).
  assert (H1 : step (SourceExit k) self = (Ret (), registered k st1 self, [])).
  { unfold_acts. unfold Player.exit. rewrite Hst. cbn. rewrite Hst. cbn.
    rewrite Hc. cbn. rewrite Hs, He, Ha. cbn. reflexivity. }
  assert (H2 : step (Schedule k) (registered k st1 self)
               = (Ret (), registered k st2 (registered k st1 self),
                  [SendMessage (VoiceEntry.channel e) (NOW_PLAYING e)])).
  { subst st2 st1 p1. unfold_acts. unfold registered.
    crunch; rewrite ?insert_insert_eq; first [reflexivity | congruence]. }
  assert (H3 : step (Schedule k) (registered k st2 (registered k st1 self))
               = (Ret (),
                  registered k
                    (VoiceState.with_audio_player VoiceState.AwaitNext
                       (VoiceState.with_current
                          (Some (VoiceEntry.with_player
                                   (Player.start (VoiceEntry.player e)) e))
                          st2))
                    (registered k st2 (registered k st1 self)),
                  [SourceCall OpStart])).
  { subst st2 st1 p1. unfold_acts. unfold registered.
    crunch; rewrite ?insert_insert_eq; first [reflexivity | congruence]. }
  rewrite (run_step_one _ _ _ _ _ H1), (run_step_one _ _ _ _ _ H2),
    (run_step_one _ _ _ _ _ H3).
  cbn. unfold registered. cbn. rewrite !insert_insert_eq.
  do 3 f_equal. destruct st. cbn in *. by subst.
Qed.

(** X14. A forced skip moves on to the next song.  While an entry plays
    whose source the task has started, with the task waiting for
    [play_next_song], and another entry is queued: the skip of the
    requester, the leaving of the stopped source's thread and two turns
    of the task end with the queued entry as current entry, its source
    started, the rest of the queue in order, and no votes.  What is
    sent, in order: the reply to the requester, the stop of the old
    source, the announcement of the next entry, the start of its
    source. *)
Theorem forced_skip_starts_next (ctx : Message.t) (self : Music.t)
    (st : VoiceState.t) (c e : VoiceEntry.t) (rest : list VoiceEntry.t) :
  let k := Message.server ctx in
  Music.voice_states self !! k = Some st →
  VoiceState.is_playing st = (Ret true, st, []) →
  VoiceState.current st = Some c →
  Member.id (Message.author ctx) = Member.id (VoiceEntry.requester c) →
  VoiceState.audio_player st = VoiceState.AwaitNext →
  Player.started (VoiceEntry.player c) = true →
  Player.after_called (VoiceEntry.player c) = false →
  VoiceState.songs st = e :: rest →
  run [Invoke ctx Skip; SourceExit k; Schedule k; Schedule k] self
    = (Ret (),
       registered k
         (VoiceState.with_play_next_song false
            (VoiceState.with_skip_votes ∅
               (VoiceState.with_songs rest
                  (VoiceState.with_current
                     (Some (VoiceEntry.with_player
                              (Player.start (VoiceEntry.player e)) e))
                     st))))
         self,
       [Say (Message.channel ctx) (SKIP_REQUESTER c (VoiceEntry.requester c));
        SourceCall OpStop;
        SendMessage (VoiceEntry.channel e) (NOW_PLAYING e);
        SourceCall OpStart]).
Proof.
  intros k Hst Hplay Hc Hreq Hpc Hs Ha Hq. subst k.
  pose proof (skip_requester self ctx st c Hst Hplay Hc Hreq) as Hskip.
  apply (step_invoke ctx Skip) in Hskip.
  rewrite (run_step_one _ _ _ _ _ Hskip).
  match type of Hskip with _ = (_, ?m, _) => set (m1 := m) end.
  erewrite (exit_then_next (Message.server ctx) m1 _ _ e rest);
    [| apply lookup_insert_eq | done | reflexivity | done | reflexivity
     | done | done ].
  cbn. unfold registered, m1. cbn. by rewrite insert_insert_eq.
Qed.

Lemma forced_skip_starts_next_witness :
  VoiceState.current
    (state_of "guild"
       (state_after
          (run [Invoke (by_ ann) Skip; SourceExit "guild"; Schedule "guild";
                Schedule "guild"]
             a_playing_b_queued)))
  = Some (VoiceEntry.with_player (Player.start (VoiceEntry.player song_b)) song_b).
Proof.
  pose proof (forced_skip_starts_next (by_ ann) a_playing_b_queued
                (state_of "guild" a_playing_b_queued) song_a_started song_b [])
    as H.
  cbn zeta in H. change (Message.server (by_ ann)) with "guild" in H.
  rewrite H; reflexivity.
Defined.

(** X15. A song that ends by itself is followed by the next one.  While
    an entry plays whose source the task has started and which is not
    paused, with the task waiting for [play_next_song], and another
    entry is queued: the end of the media, the leaving of the thread and
    two turns of the task end with the queued entry as current entry,
    its source started, and the rest of the queue in order; the task
    announces the entry before it starts its source. *)
Theorem natural_end_starts_next (k : string) (self : Music.t)
    (st : VoiceState.t) (c e : VoiceEntry.t) (rest : list VoiceEntry.t) :
  Music.voice_states self !! k = Some st →
  VoiceState.current st = Some c →
  VoiceState.audio_player st = VoiceState.AwaitNext →
  Player.started (VoiceEntry.player c) = true →
  Player.ended (VoiceEntry.player c) = false →
  Player.resumed (VoiceEntry.player c) = true →
  Player.after_called (VoiceEntry.player c) = false →
  VoiceState.songs st = e :: rest →
  run [SourceEnd k; SourceExit k; Schedule k; Schedule k] self
    = (Ret (),
       registered k
         (VoiceState.with_play_next_song false
            (VoiceState.with_songs rest
               (VoiceState.with_current
                  (Some (VoiceEntry.with_player
                           (Player.start (VoiceEntry.player e)) e))
                  st)))
         self,
       [SendMessage (VoiceEntry.channel e) (NOW_PLAYING e); SourceCall OpStart]).
Proof.
  intros Hst Hc Hpc Hs He Hr Ha Hq.
  set (st1 := VoiceState.with_current
                (Some (VoiceEntry.with_player
                         (Player.stop (VoiceEntry.player c)) c)) st).
  assert (H1 : step (SourceEnd k) self = (Ret (), registered k st1 self, [])).
  { unfold_acts. unfold Player.finish. rewrite Hst. cbn. rewrite Hst. cbn.
    rewrite Hc. cbn. rewrite Hs, He, Hr. cbn. reflexivity. }
  rewrite (run_step_one _ _ _ _ _ H1).
  erewrite (exit_then_next k (registered k st1 self) st1 _ e rest);
    [| apply lookup_insert_eq | done | reflexivity | done | reflexivity
     | done | done ].
  cbn. unfold registered, st1. cbn. by rewrite insert_insert_eq.
Qed.

Lemma natural_end_starts_next_witness :
  effects
    (run [SourceEnd "guild"; SourceExit "guild"; Schedule "guild";
          Schedule "guild"]
       a_playing_b_queued)
  = [SendMessage general (NOW_PLAYING song_b); SourceCall OpStart].
Proof.
  rewrite (natural_end_starts_next "guild" a_playing_b_queued
             (state_of "guild" a_playing_b_queued) song_a_started song_b []);
    reflexivity.
Defined.

(** ** [__unload] *)

Lemma unload_state_eq (st : VoiceState.t) :
  unload_state st
    = (Ret (), VoiceState.with_audio_player VoiceState.Cancelled st,
       unload_calls st).
Proof.
  unfold unload_state, unload_calls. unfold_acts. cbn.
  destruct (VoiceState.voice st); reflexivity.
Qed.

Lemma for_each_unload (kvs : list (string * VoiceState.t)) (self : Music.t) :
  NoDup kvs.*1 →
  (∀ k v, (k, v) ∈ kvs → Music.voice_states self !! k = Some v) →
  result (for_each_state kvs.*1 unload_state self) = Ret ()
  ∧ (∀ k, Music.voice_states
            (state_after (for_each_state kvs.*1 unload_state self)) !! k
          = if decide (k ∈ kvs.*1)
            then VoiceState.with_audio_player VoiceState.Cancelled
                   <$> Music.voice_states self !! k
            else Music.voice_states self !! k)
  ∧ effects (for_each_state kvs.*1 unload_state self)
    = flat_map (λ kv, unload_calls kv.2) kvs.
Proof.
  revert self. induction kvs as [|[k0 v0] kvs IH]; intros self Hnd Hin.
  - cbn. split; [done|]. split; [|done]. intros k.
    by rewrite decide_False by apply not_elem_of_nil.
  - cbn in Hnd. apply NoDup_cons in Hnd as [Hk0 Hnd].
    assert (Hv0 : Music.voice_states self !! k0 = Some v0)
      by apply Hin, list_elem_of_here.
    set (self1 := Music.mk (<[k0 := VoiceState.with_audio_player
                                      VoiceState.Cancelled v0]>
                              (Music.voice_states self))).
    assert (Hon : Music.on k0 unload_state self
                  = (Ret (), self1, unload_calls v0)).
    { unfold Music.on. by rewrite Hv0, unload_state_eq. }
    destruct (IH self1 Hnd) as (Hr & Hl & He).
    { intros k v Hkv. unfold self1. cbn. rewrite lookup_insert_ne.
      - apply Hin. by apply list_elem_of_further.
      - intros <-. apply Hk0. apply list_elem_of_fmap. by exists (k0, v). }
    cbn [fmap list_fmap for_each_state fst]. unfold bind. rewrite Hon.
    destruct (for_each_state kvs.*1 unload_state self1) as [[r s2] o2] eqn:Hfe.
    unfold result, state_after, effects in *. cbn [fst snd] in *.
    split; [done|]. split.
    + intros k. rewrite Hl. unfold self1. cbn.
      destruct (decide (k = k0)) as [->|Hne].
      * rewrite decide_False by done.
        rewrite decide_True by apply list_elem_of_here.
        by rewrite lookup_insert_eq, Hv0.
      * rewrite lookup_insert_ne by done.
        destruct (decide (k ∈ kvs.*1)) as [Hk|Hk].
        -- by rewrite decide_True by by apply list_elem_of_further.
        -- rewrite decide_False; [done|].
           intros [?|?]%elem_of_cons; done.
    + by rewrite He.
Qed.

Lemma unload_calls_transport (kvs : list (string * VoiceState.t)) :
  filter (λ o, is_cancel o = false) (flat_map (λ kv, unload_calls kv.2) kvs)
    = replicate
        (length (filter (λ kv, is_Some (VoiceState.voice kv.2)) kvs))
        (Transport Disconnect).
Proof.
  induction kvs as [|[k v] kvs IH]; [done|].
  cbn [flat_map]. rewrite filter_app, IH.
  rewrite (filter_cons (λ kv, is_Some (VoiceState.voice kv.2))).
  unfold unload_calls. cbn [snd].
  destruct (VoiceState.voice v) as [vc|] eqn:Hv.
  - rewrite decide_True by by eexists. reflexivity.
  - rewrite decide_False by (by intros [? ?]). reflexivity.
Qed.

Lemma unload_calls_cancels (kvs : list (string * VoiceState.t)) :
  length (filter (λ o, is_cancel o = true)
            (flat_map (λ kv, unload_calls kv.2) kvs))
    = length kvs.
Proof.
  induction kvs as [|[k v] kvs IH]; [done|].
  cbn [flat_map]. rewrite filter_app, length_app, IH.
  unfold unload_calls. cbn [snd]. by destruct (VoiceState.voice v).
Qed.

(** X16. [__unload] never raises.  It cancels the player task of every
    registered state and changes nothing else in the registry: every
    server stays registered, with its voice client, queue, current
    entry and votes.  Its calls are, state by state, the cancellation
    of the task and, for a state that has a voice client, the
    [disconnect] that it hands to the event loop: one cancellation for
    each state, one [disconnect] for each state that has a voice
    client, and nothing else; no source is stopped.  Afterwards
    scheduling the task of any server does nothing. *)
Theorem unload_cancels_tasks (self : Music.t) :
  result (unload self) = Ret ()
  ∧ Music.voice_states (state_after (unload self))
    = VoiceState.with_audio_player VoiceState.Cancelled
        <$> Music.voice_states self
  ∧ effects (unload self)
    = flat_map (λ kv, unload_calls kv.2)
        (map_to_list (Music.voice_states self))
  ∧ filter (λ o, is_cancel o = false) (effects (unload self))
    = replicate
        (length (filter (λ kv, is_Some (VoiceState.voice kv.2))
                   (map_to_list (Music.voice_states self))))
        (Transport Disconnect)
  ∧ length (filter (λ o, is_cancel o = true) (effects (unload self)))
    = size (Music.voice_states self)
  ∧ (∀ k, step (Schedule k) (state_after (unload self))
          = (Ret (), state_after (unload self), [])).
Proof.
  destruct (for_each_unload (map_to_list (Music.voice_states self)) self)
    as (Hr & Hl & He).
  { apply NoDup_fst_map_to_list. }
  { intros k v. by rewrite elem_of_map_to_list. }
  assert (Hunload : unload self
            = for_each_state (map_to_list (Music.voice_states self)).*1
                unload_state self).
  { unfold unload, bind, get.
    by destruct (for_each_state _ unload_state self) as [[r s] o]. }
  rewrite Hunload.
  assert (Hmap : Music.voice_states
                   (state_after
                      (for_each_state (map_to_list (Music.voice_states self)).*1
                         unload_state self))
                 = VoiceState.with_audio_player VoiceState.Cancelled
                     <$> Music.voice_states self).
  { apply map_eq. intros k. rewrite Hl, lookup_fmap.
    destruct (decide _) as [Hk|Hk]; [done|].
    destruct (Music.voice_states self !! k) as [v|] eqn:Hv; [|done].
    exfalso. apply Hk. apply list_elem_of_fmap. exists (k, v).
    split; [done|]. by apply elem_of_map_to_list. }
  split; [done|]. split; [done|]. split; [done|].
  split; [rewrite He; apply unload_calls_transport|].
  split; [rewrite He, unload_calls_cancels; apply length_map_to_list|].
  intros k. set (after := state_after _) in *.
  pose proof (f_equal (λ m, m !! k) Hmap) as Hk. cbn in Hk.
  rewrite lookup_fmap in Hk.
  unfold_acts.
  destruct (Music.voice_states self !! k) as [v|]; cbn in Hk; rewrite Hk; cbn.
  - rewrite Hk. cbn. by rewrite (insert_same _ _ _ Hk).
  - done.
Qed.

Lemma unload_cancels_tasks_witness :
  effects (unload a_playing_b_queued) = [CancelTask; Transport Disconnect]
  ∧ step (Schedule "guild") (state_after (unload a_playing_b_queued))
    = (Ret (), state_after (unload a_playing_b_queued), []).
Proof.
  destruct (unload_cancels_tasks a_playing_b_queued)
    as (_ & _ & He & _ & _ & Hs).
  split; [|apply Hs]. rewrite He. reflexivity.
Defined.

(** ** [VoiceEntry.__str__] *)

(** X17. [str(entry)] shows a length only for a duration that is neither
    [None] nor 0.  The length it shows is [m]m [s]s with
    [duration = 60 * m + s] and [0 ≤ s < 60], appended to the template
    before the template is formatted. *)
Theorem entry_length_shown (VOICE_ENTRY : string)
    (format : string → Player.t → Member.t → string)
    (self : VoiceEntry.t) :
  VoiceEntry_str VOICE_ENTRY format None self
    = format VOICE_ENTRY (VoiceEntry.player self) (VoiceEntry.requester self)
  ∧ VoiceEntry_str VOICE_ENTRY format (Some 0%Z) self
    = format VOICE_ENTRY (VoiceEntry.player self) (VoiceEntry.requester self)
  ∧ (∀ d : Z,
       d ≠ 0%Z →
       ∃ m s : Z,
         d = (60 * m + s)%Z ∧ (0 ≤ s < 60)%Z
         ∧ VoiceEntry_str VOICE_ENTRY format (Some d) self
           = format
               (VOICE_ENTRY +:+ " [length: " +:+ pretty m +:+ "m "
                  +:+ pretty s +:+ "s]")
               (VoiceEntry.player self) (VoiceEntry.requester self)).
Proof.
  split; [done|]. split; [done|].
  intros d Hd. exists (d `div` 60)%Z, (d `mod` 60)%Z.
  split; [apply Z.div_mod; lia|].
  split; [apply Z.mod_pos_bound; lia|].
  unfold VoiceEntry_str, length_suffix.
  by rewrite bool_decide_eq_true_2 by done.
Qed.

Lemma entry_length_shown_witness :
  VoiceEntry_str "song" (λ fmt _ _, fmt) (Some 215%Z) song_a
    = "song [length: 3m 35s]".
Proof.
  destruct (entry_length_shown "song" (λ fmt _ _, fmt) song_a) as (_ & _ & H).
  destruct (H 215%Z) as (m & s & _ & _ & Hstr); [discriminate|].
  vm_compute. reflexivity.
Defined.
